(** * Alien Invasion (Lab14): the frame-loop game-state machine

    A shallow embedding of the simulation core of the game: [settings.py],
    [bullet.py], [arsenal.py], [ship.py], [alien.py], [alien_fleet.py],
    [game_stats.py] and the controller in [Lab14_corta1.py].

    Conventions of the embedding.
    - A Python [int] is a [Z].  Python's [//] and [%] on integers are floor
      division and its remainder, which are [Z.div] and [Z.modulo].
    - A Python [float] is a rational [Q]: arithmetic is exact, the rounding
      of IEEE doubles is not modelled.  Equations between floats are stated
      with [==].
    - A pygame [Rect] holds integers; assigning a float to one of its
      coordinates truncates it toward zero ([trunc]).
    - A pygame sprite [Group] is the list of its sprites in insertion order,
      the order in which [Group.sprites()] enumerates them.
    - A Python exception is a value of [exn]; a function that can raise
      returns a [result].
    - Rendering, sound, the clock and [sleep] have no effect on the state
      modelled here and are left out. *)

From Stdlib Require Import String ZArith QArith Qround List Lia Lqa Bool Permutation.
Import ListNotations.
Open Scope Z_scope.

(** ** Python values and exceptions *)

Inductive exn : Type :=
| ZeroDivisionError
| JSONDecodeError
| AttributeError
| FileNotFoundError
| PermissionError.

Inductive result (A : Type) : Type :=
| Ok (a : A)
| Raise (e : exn).

Arguments Ok {A} a.
Arguments Raise {A} e.

Definition bind {A B : Type} (r : result A) (k : A -> result B) : result B :=
  match r with
  | Ok a => k a
  | Raise e => Raise e
  end.

Notation "x <- r ;; k" := (bind r (fun x => k))
  (at level 61, r at next level, right associativity).

(** Conversion of a float to the integer a [Rect] coordinate stores. *)
Definition trunc (q : Q) : Z :=
  if Qle_bool 0 q then Qfloor q else Qceiling q.

(** [range(n)] *)
Definition range (n : Z) : list Z :=
  map Z.of_nat (seq 0 (Z.to_nat n)).

(** ** pygame.Rect, as far as the game uses it *)

Module Rect.

Record t : Type := mk { x : Z; y : Z; w : Z; h : Z }.

Definition top (r : t) : Z := y r.
Definition bottom (r : t) : Z := y r + h r.
Definition left (r : t) : Z := x r.
Definition right (r : t) : Z := x r + w r.

(** [r.midleft] is [(x, y + h / 2)] with C's integer division. *)
Definition midleft (r : t) : Z * Z := (x r, y r + Z.quot (h r) 2).

(** [r.midleft = p] moves the rectangle and keeps its size. *)
Definition set_midleft (r : t) (p : Z * Z) : t :=
  mk (fst p) (snd p - Z.quot (h r) 2) (w r) (h r).

Definition set_x (r : t) (v : Z) : t := mk v (y r) (w r) (h r).
Definition set_y (r : t) (v : Z) : t := mk (x r) v (w r) (h r).

(** [a.colliderect(b)]: the rectangles overlap in an area; a rectangle of
    width or height zero collides with nothing. *)
Definition colliderect (a b : t) : bool :=
  if (w a =? 0) || (h a =? 0) || (w b =? 0) || (h b =? 0) then false
  else
    (Z.min (x a) (x a + w a) <? Z.max (x b) (x b + w b)) &&
    (Z.min (y a) (y a + h a) <? Z.max (y b) (y b + h b)) &&
    (Z.max (x a) (x a + w a) >? Z.min (x b) (x b + w b)) &&
    (Z.max (y a) (y a + h a) >? Z.min (y b) (y b + h b)).

(** [surface.get_rect()] of a surface of the given size. *)
Definition get_rect (width height : Z) : t := mk 0 0 width height.

End Rect.

(** ** settings.py *)

Module Settings.

Record t : Type := mk {
  screen_w : Z;
  screen_h : Z;
  FPS : Z;
  difficulty_scale : Q;
  ship_w : Z;
  ship_h : Z;
  alien_w : Z;
  alien_h : Z;
  fleet_direction : Z;
  (* assigned by initialize_dynamic_settings *)
  ship_speed : Q;
  starting_ship_count : Z;
  bullet_speed : Q;
  bullet_amount : Z;
  bullet_w : Z;
  bullet_h : Z;
  fleet_speed : Q;
  fleet_drop_speed : Z;
  alien_points : Z
}.

Definition initialize_dynamic_settings (s : t) : t :=
  mk (screen_w s) (screen_h s) (FPS s) (difficulty_scale s)
     (ship_w s) (ship_h s) (alien_w s) (alien_h s) (fleet_direction s)
     10 3 20 50 25 80 5 40 50.

Definition increase_difficulty (s : t) : t :=
  mk (screen_w s) (screen_h s) (FPS s) (difficulty_scale s)
     (ship_w s) (ship_h s) (alien_w s) (alien_h s) (fleet_direction s)
     (ship_speed s * difficulty_scale s) (starting_ship_count s)
     (bullet_speed s * difficulty_scale s) (bullet_amount s)
     (bullet_w s) (bullet_h s)
     (fleet_speed s * difficulty_scale s) (fleet_drop_speed s)
     (alien_points s).

(** [Settings()] assigns the static attributes only; the game calls
    [initialize_dynamic_settings] right after it, before any dynamic
    attribute is read.  [new] is the two calls together. *)
Definition new : t :=
  initialize_dynamic_settings
    (mk 1200 800 60 (11 # 10) 40 60 40 40 1 0 0 0 0 0 0 0 0 0).

(** The screen's rectangle, [game.screen.get_rect()]. *)
Definition boundaries (s : t) : Rect.t :=
  Rect.get_rect (screen_w s) (screen_h s).

End Settings.

(** ** pygame.sprite: the collision functions the game calls

    [collided a b] stands for [a.rect.colliderect(b.rect)]. *)

Module Sprite.

Section Collisions.

Context {A B : Type}.
Variable collided : A -> B -> bool.

(** [spritecollide(sprite, group, True)]: the sprites of [group] that
    collide with [sprite], each of them killed; also returns the group
    afterwards. *)
Definition spritecollide (sprite : A) (group : list B) : list B * list B :=
  (filter (collided sprite) group,
   filter (fun b => negb (collided sprite b)) group).

(** [spritecollideany(sprite, group)]: the first sprite of [group] that
    collides, or [None]. *)
Definition spritecollideany (sprite : A) (group : list B) : option B :=
  find (collided sprite) group.

(** [groupcollide(groupa, groupb, True, True)]: every sprite of [groupa],
    in the group's order, is tested with [spritecollide] against what is
    then left of [groupb]; when something collided the sprite is entered
    in the [crashed] dictionary with its list and killed.  Returns the
    dictionary (its items in insertion order), and both groups
    afterwards. *)
Fixpoint groupcollide (groupa : list A) (groupb : list B)
  : list (A * list B) * list A * list B :=
  match groupa with
  | [] => ([], [], groupb)
  | group_a_sprite :: rest =>
      let (collision, groupb1) := spritecollide group_a_sprite groupb in
      let '(crashed, groupa', groupb') := groupcollide rest groupb1 in
      match collision with
      | [] => (crashed, group_a_sprite :: groupa', groupb')
      | _ :: _ => ((group_a_sprite, collision) :: crashed, groupa', groupb')
      end
  end.

End Collisions.

End Sprite.

(** ** bullet.py *)

Module Bullet.

Record t : Type := mk { rect : Rect.t; x : Q }.

(** [Bullet(game)]: the image is scaled to [bullet_w] by [bullet_h] and
    turned by a quarter, so the rectangle is [bullet_h] wide and
    [bullet_w] high; its mid-left point is put on the ship's. *)
Definition __init__ (st : Settings.t) (ship_rect : Rect.t) : t :=
  let r := Rect.get_rect (Settings.bullet_h st) (Settings.bullet_w st) in
  let r := Rect.set_midleft r (Rect.midleft ship_rect) in
  mk r (inject_Z (Rect.x r)).

Definition update (st : Settings.t) (b : t) : t :=
  let x' := (x b + Settings.bullet_speed st)%Q in
  mk (Rect.set_x (rect b) (trunc x')) x'.

End Bullet.

(** ** arsenal.py *)

Module Arsenal.

(** The [arsenal] sprite group. *)
Definition t : Type := list Bullet.t.

Definition __init__ : t := [].

Definition _remove_bullets_offscreen (st : Settings.t) (a : t) : t :=
  filter
    (fun b => negb (Rect.right (Bullet.rect b) >=? Settings.screen_w st + 80))
    a.

Definition update_arsenal (st : Settings.t) (a : t) : t :=
  _remove_bullets_offscreen st (map (Bullet.update st) a).

(** Returns the flag the caller tests and the group afterwards. *)
Definition fire_bullet (st : Settings.t) (ship_rect : Rect.t) (a : t)
  : bool * t :=
  if Z.of_nat (length a) <? Settings.bullet_amount st then
    let new_bullet := Bullet.__init__ st ship_rect in
    (true, a ++ [new_bullet])
  else (false, a).

End Arsenal.

(** ** ship.py *)

Module Ship.

Record t : Type := mk {
  rect : Rect.t;
  y : Q;
  moving_up : bool;
  moving_down : bool;
  arsenal : Arsenal.t
}.

Definition set_arsenal (s : t) (a : Arsenal.t) : t :=
  mk (rect s) (y s) (moving_up s) (moving_down s) a.
Definition set_moving_up (s : t) (b : bool) : t :=
  mk (rect s) (y s) b (moving_down s) (arsenal s).
Definition set_moving_down (s : t) (b : bool) : t :=
  mk (rect s) (y s) (moving_up s) b (arsenal s).

Definition _center_ship (st : Settings.t) (s : t) : t :=
  let r := Rect.set_midleft (rect s) (Rect.midleft (Settings.boundaries st)) in
  mk r (inject_Z (Rect.y r)) (moving_up s) (moving_down s) (arsenal s).

(** The image is scaled to [ship_w] by [ship_h] and turned by a quarter:
    the rectangle is [ship_h] wide and [ship_w] high. *)
Definition __init__ (st : Settings.t) (a : Arsenal.t) : t :=
  let r := Rect.get_rect (Settings.ship_h st) (Settings.ship_w st) in
  _center_ship st (mk r 0 false false a).

Definition _update_ship_movement (st : Settings.t) (s : t) : t :=
  let temp_speed := Settings.ship_speed st in
  let b := Settings.boundaries st in
  let y1 :=
    if moving_up s && (Rect.top (rect s) >? Rect.top b)
    then (y s - temp_speed)%Q else y s in
  let y2 :=
    if moving_down s && (Rect.bottom (rect s) <? Rect.bottom b)
    then (y1 + temp_speed)%Q else y1 in
  mk (Rect.set_y (rect s) (trunc y2)) y2
     (moving_up s) (moving_down s) (arsenal s).

Definition update (st : Settings.t) (s : t) : t :=
  let s := _update_ship_movement st s in
  set_arsenal s (Arsenal.update_arsenal st (arsenal s)).

Definition fire (st : Settings.t) (s : t) : bool * t :=
  let (fired, a) := Arsenal.fire_bullet st (rect s) (arsenal s) in
  (fired, set_arsenal s a).

(** [other_group] is a group of sprites of any class; [rect_of] reads a
    sprite's rectangle. *)
Definition check_collisions {B : Type} (rect_of : B -> Rect.t)
  (st : Settings.t) (other_group : list B) (s : t) : bool * t :=
  match
    Sprite.spritecollideany
      (fun (ship : t) other => Rect.colliderect (rect ship) (rect_of other))
      s other_group
  with
  | Some _ => (true, _center_ship st s)
  | None => (false, s)
  end.

End Ship.

(** ** alien.py *)

Module Alien.

Record t : Type := mk { rect : Rect.t; x : Q; y : Q }.

(** [Alien(fleet, x, y)]: the image is scaled to [alien_h] by [alien_w]
    and turned by a quarter, so the rectangle is [alien_w] wide and
    [alien_h] high. *)
Definition __init__ (st : Settings.t) (x0 y0 : Z) : t :=
  let r := Rect.get_rect (Settings.alien_w st) (Settings.alien_h st) in
  let r := Rect.set_x r x0 in
  let r := Rect.set_y r y0 in
  mk r (inject_Z (Rect.x r)) (inject_Z (Rect.y r)).

(** [fleet_direction] is read from the fleet the alien belongs to. *)
Definition update (st : Settings.t) (fleet_direction : Z) (a : t) : t :=
  let temp_speed := Settings.fleet_speed st in
  let y' := (y a + temp_speed * inject_Z fleet_direction)%Q in
  mk (Rect.set_x (Rect.set_y (rect a) (trunc y')) (trunc (x a))) (x a) y'.

Definition check_edges (st : Settings.t) (a : t) : bool :=
  (Rect.bottom (rect a) >=? Rect.bottom (Settings.boundaries st)) ||
  (Rect.top (rect a) <=? Rect.top (Settings.boundaries st)).

End Alien.

(** ** alien_fleet.py *)

Module AlienFleet.

Record t : Type := mk {
  fleet : list Alien.t;
  fleet_direction : Z;
  fleet_drop_speed : Z
}.

Definition set_fleet (f : t) (l : list Alien.t) : t :=
  mk l (fleet_direction f) (fleet_drop_speed f).

(** [screen_h // alien_h] is an integer; [(screen_w / 2) // alien_w] is a
    float with an integral value, which [int()] returns as it is.  Both
    divisions raise on a zero divisor. *)
Definition calculate_fleet_size (alien_h screen_h alien_w screen_w : Z)
  : result (Z * Z) :=
  if alien_h =? 0 then Raise ZeroDivisionError else
  let fleet_h := screen_h / alien_h in
  if alien_w =? 0 then Raise ZeroDivisionError else
  let fleet_w := Qfloor ((inject_Z screen_w / 2) / inject_Z alien_w)%Q in
  let fleet_h := if fleet_h mod 2 =? 0 then fleet_h - 1 else fleet_h - 2 in
  let fleet_w := if fleet_w mod 2 =? 0 then fleet_w - 1 else fleet_w - 2 in
  Ok (fleet_h, fleet_w).

Definition calculate_offsets
  (alien_h fleet_h alien_w fleet_w screen_h screen_w : Z) : Z * Z :=
  let half_screen := screen_w / 2 in
  let fleet_vertical_space := fleet_h * alien_h in
  let fleet_horizontal_space := fleet_w * alien_w in
  let y_offset := (screen_h - fleet_vertical_space) / 2 in
  let x_offset := half_screen + (half_screen - fleet_horizontal_space) / 2 in
  (x_offset, y_offset).

(** The parameters are named as in the source: the caller passes
    [(current_y, current_x)] and [_create_alien] passes its two arguments
    on to [Alien] in reverse again. *)
Definition _create_alien (st : Settings.t) (current_x current_y : Z)
  (group : list Alien.t) : list Alien.t :=
  let new_alien := Alien.__init__ st current_y current_x in
  group ++ [new_alien].

Definition _create_rectangle_fleet (st : Settings.t)
  (fleet_w fleet_h alien_w alien_h x_offset y_offset : Z)
  (group : list Alien.t) : list Alien.t :=
  fold_left
    (fun group col =>
       fold_left
         (fun group row =>
            let current_y := alien_h * row + y_offset in
            let current_x := alien_w * col + x_offset in
            if (row mod 2 =? 0) || (col mod 2 =? 0) then group
            else _create_alien st current_y current_x group)
         (range fleet_h) group)
    (range fleet_w) group.

Definition create_fleet (st : Settings.t) (f : t) : result t :=
  let alien_h := Settings.alien_h st in
  let alien_w := Settings.alien_w st in
  let screen_h := Settings.screen_h st in
  let screen_w := Settings.screen_w st in
  size <- calculate_fleet_size alien_h screen_h alien_w screen_w ;;
  let (fleet_h, fleet_w) := size : Z * Z in
  let (x_offset, y_offset) :=
    calculate_offsets alien_h fleet_h alien_w fleet_w screen_h screen_w in
  Ok (set_fleet f
        (_create_rectangle_fleet st fleet_w fleet_h alien_w alien_h
           x_offset y_offset (fleet f))).

Definition __init__ (st : Settings.t) : result t :=
  create_fleet st
    (mk [] (Settings.fleet_direction st) (Settings.fleet_drop_speed st)).

Definition _drop_alien_fleet (f : t) : t :=
  set_fleet f
    (map (fun alien =>
            Alien.mk (Alien.rect alien)
              (Alien.x alien - inject_Z (fleet_drop_speed f))%Q
              (Alien.y alien))
         (fleet f)).

(** The loop over the fleet, left at the first alien on an edge. *)
Fixpoint _check_fleet_edges_from (st : Settings.t) (todo : list Alien.t)
  (f : t) : t :=
  match todo with
  | [] => f
  | alien :: rest =>
      if Alien.check_edges st alien then
        let f := _drop_alien_fleet f in
        mk (fleet f) (fleet_direction f * -1) (fleet_drop_speed f)
      else _check_fleet_edges_from st rest f
  end.

Definition _check_fleet_edges (st : Settings.t) (f : t) : t :=
  _check_fleet_edges_from st (fleet f) f.

Definition update_fleet (st : Settings.t) (f : t) : t :=
  let f := _check_fleet_edges st f in
  set_fleet f (map (Alien.update st (fleet_direction f)) (fleet f)).

Definition collided (alien : Alien.t) (bullet : Bullet.t) : bool :=
  Rect.colliderect (Alien.rect alien) (Bullet.rect bullet).

(** Returns the collisions dictionary, the fleet and the other group
    afterwards. *)
Definition check_collisions (f : t) (other_group : Arsenal.t)
  : list (Alien.t * list Bullet.t) * t * Arsenal.t :=
  let '(collisions, fleet', other') :=
    Sprite.groupcollide collided (fleet f) other_group in
  (collisions, set_fleet f fleet', other').

Definition check_fleet_left (f : t) : bool :=
  existsb (fun alien => Rect.right (Alien.rect alien) <? 0) (fleet f).

Definition check_destroyed_status (f : t) : bool :=
  match fleet f with
  | [] => true
  | _ :: _ => false
  end.

End AlienFleet.

(** ** game_stats.py *)

(** What [json.loads] makes of the text of the scores file.  A member
    [hi_score] is taken to hold an integer, as every record the game writes
    does. *)
Inductive scores_json : Type :=
| Malformed                          (* json.loads raises JSONDecodeError *)
| NotAnObject                        (* a list, number, string or null: it has no [get] *)
| ScoresObject (hi_score : option Z) (* an object, with its member hi_score when it has one *).

(** The scores file as [pathlib] shows it.  The text of a file is kept as
    what [json.loads] makes of it. *)
Inductive scores_file : Type :=
| Missing
| Present (contents : scores_json).

(** The environment of the persistence calls: the file, the exception
    [read_text] or [write_text] raises in this environment (if any), and
    the exceptions printed so far. *)
Record disk : Type := mk_disk {
  file : scores_file;
  read_error : option exn;
  write_error : option exn;
  printed : list exn
}.

Module GameStats.

Record t : Type := mk {
  max_score : Z;
  hi_score : Z;
  ships_left : Z;
  score : Z;
  level : Z
}.

(** [self.path.stat.__sizeof__()]: [stat] is not called, so this is the
    size in bytes of the bound-method object [self.path.stat] as CPython
    reports it (48 on a 64-bit build), whatever the file holds. *)
Definition path_stat_sizeof : Z := 48.

Definition path_exists (d : disk) : bool :=
  match file d with
  | Missing => false
  | Present _ => true
  end.

(** [self.path.read_text()] followed by [json.loads(contents)]. *)
Definition read_and_loads (d : disk) : result scores_json :=
  match read_error d with
  | Some e => Raise e
  | None =>
      match file d with
      | Missing => Raise FileNotFoundError
      | Present Malformed => Raise JSONDecodeError
      | Present scores => Ok scores
      end
  end.

(** [scores.get('hi_score', 0)] *)
Definition get_hi_score (scores : scores_json) : result Z :=
  match scores with
  | Malformed => Raise JSONDecodeError
  | NotAnObject => Raise AttributeError
  | ScoresObject (Some v) => Ok v
  | ScoresObject None => Ok 0
  end.

(** [self.path.write_text(contents)], [contents] being the dump of
    [{'hi_score': hi}]. *)
Definition write_text (hi : Z) (d : disk) : result disk :=
  match write_error d with
  | Some e => Raise e
  | None =>
      Ok (mk_disk (Present (ScoresObject (Some hi)))
            (read_error d) (write_error d) (printed d))
  end.

(** Only [FileNotFoundError] is caught (and printed). *)
Definition save_scores (hi_score : Z) (d : disk) : result disk :=
  match write_text hi_score d with
  | Ok d' => Ok d'
  | Raise FileNotFoundError =>
      Ok (mk_disk (file d) (read_error d) (write_error d)
            (printed d ++ [FileNotFoundError]))
  | Raise e => Raise e
  end.

(** Returns the value given to [self.hi_score] and the disk afterwards. *)
Definition init_saved_scores (d : disk) : result (Z * disk) :=
  if path_exists d && (path_stat_sizeof >? 20) then
    scores <- read_and_loads d ;;
    hi <- get_hi_score scores ;;
    Ok (hi, d)
  else
    d' <- save_scores 0 d ;;
    Ok (0, d').

Definition reset_stats (st : Settings.t) (s : t) : t :=
  mk (max_score s) (hi_score s) (Settings.starting_ship_count st) 0 1.

(** [GameStats(game)] *)
Definition __init__ (st : Settings.t) (d : disk) : result (t * disk) :=
  loaded <- init_saved_scores d ;;
  let (hi, d') := loaded : Z * disk in
  Ok (reset_stats st (mk 0 hi 0 0 0), d').

Definition _update_max_score (s : t) : t :=
  if score s >? max_score s
  then mk (score s) (hi_score s) (ships_left s) (score s) (level s)
  else s.

Definition _update_hi_score (s : t) : t :=
  if score s >? hi_score s
  then mk (max_score s) (score s) (ships_left s) (score s) (level s)
  else s.

(** One addition per value of the dictionary. *)
Definition _update_score {K V : Type} (st : Settings.t)
  (collisions : list (K * V)) (s : t) : t :=
  fold_left
    (fun s (_ : V) =>
       mk (max_score s) (hi_score s) (ships_left s)
          (score s + Settings.alien_points st) (level s))
    (map snd collisions) s.

Definition update {K V : Type} (st : Settings.t)
  (collisions : list (K * V)) (s : t) : t :=
  _update_hi_score (_update_max_score (_update_score st collisions s)).

Definition update_level (s : t) : t :=
  mk (max_score s) (hi_score s) (ships_left s) (score s) (level s + 1).

End GameStats.

(** ** The heads-up display *)

Module HUD.

(** Modelled from the spec: [hud.py] is not among the sources.  The spec
    has the rendering collaborator consume the state of the statistics
    read-only, so refreshing the score images leaves [GameStats] as it
    is. *)
Definition update_scores (s : GameStats.t) : GameStats.t := s.

(** Modelled from the spec: as [update_scores], for the level image of the
    missing [hud.py]. *)
Definition update_level (s : GameStats.t) : GameStats.t := s.

End HUD.

(** ** Lab14_corta1.py: the controller *)

Module AlienInvasion.

Record t : Type := mk {
  settings : Settings.t;
  game_stats : GameStats.t;
  running : bool;
  ship : Ship.t;
  alien_fleet : AlienFleet.t;
  game_active : bool
}.

Definition set_settings (g : t) (v : Settings.t) : t :=
  mk v (game_stats g) (running g) (ship g) (alien_fleet g) (game_active g).
Definition set_game_stats (g : t) (v : GameStats.t) : t :=
  mk (settings g) v (running g) (ship g) (alien_fleet g) (game_active g).
Definition set_ship (g : t) (v : Ship.t) : t :=
  mk (settings g) (game_stats g) (running g) v (alien_fleet g) (game_active g).
Definition set_alien_fleet (g : t) (v : AlienFleet.t) : t :=
  mk (settings g) (game_stats g) (running g) (ship g) v (game_active g).
Definition set_game_active (g : t) (v : bool) : t :=
  mk (settings g) (game_stats g) (running g) (ship g) (alien_fleet g) v.

(** [AlienInvasion()]: the fleet is laid out by [AlienFleet(self)] and
    once more by the call of [create_fleet] that follows it. *)
Definition __init__ (d : disk) : result (t * disk) :=
  let st := Settings.new in
  loaded <- GameStats.__init__ st d ;;
  let (stats, d') := loaded : GameStats.t * disk in
  let the_ship := Ship.__init__ st Arsenal.__init__ in
  fleet1 <- AlienFleet.__init__ st ;;
  fleet2 <- AlienFleet.create_fleet st fleet1 ;;
  Ok (mk st stats true the_ship fleet2 false, d').

Definition _reset_level (g : t) : result t :=
  let g := set_ship g (Ship.set_arsenal (ship g) []) in
  let g := set_alien_fleet g (AlienFleet.set_fleet (alien_fleet g) []) in
  laid_out <- AlienFleet.create_fleet (settings g) (alien_fleet g) ;;
  Ok (set_alien_fleet g laid_out).

Definition _check_game_status (g : t) : result t :=
  if GameStats.ships_left (game_stats g) >? 0 then
    let s := game_stats g in
    let g :=
      set_game_stats g
        (GameStats.mk (GameStats.max_score s) (GameStats.hi_score s)
           (GameStats.ships_left s - 1) (GameStats.score s)
           (GameStats.level s)) in
    _reset_level g
  else
    Ok (set_game_active g false).

Definition restart_game (g : t) : result t :=
  let g := set_settings g (Settings.initialize_dynamic_settings (settings g)) in
  let g := set_game_stats g (GameStats.reset_stats (settings g) (game_stats g)) in
  let g := set_game_stats g (HUD.update_scores (game_stats g)) in
  g <- _reset_level g ;;
  let g := set_ship g (Ship._center_ship (settings g) (ship g)) in
  Ok (set_game_active g true).

Definition _check_collisions (g : t) : result t :=
  (* the ship against the fleet *)
  let (hit, the_ship) :=
    Ship.check_collisions Alien.rect (settings g)
      (AlienFleet.fleet (alien_fleet g)) (ship g) in
  let g := set_ship g the_ship in
  g <- (if hit then _check_game_status g else Ok g) ;;
  (* the fleet against the left of the screen *)
  g <- (if AlienFleet.check_fleet_left (alien_fleet g)
        then _check_game_status g else Ok g) ;;
  (* the projectiles against the fleet *)
  let '(collisions, the_fleet, the_arsenal) :=
    AlienFleet.check_collisions (alien_fleet g) (Ship.arsenal (ship g)) in
  let g := set_alien_fleet g the_fleet in
  let g := set_ship g (Ship.set_arsenal (ship g) the_arsenal) in
  let g :=
    match collisions with
    | [] => g
    | _ :: _ =>
        let g :=
          set_game_stats g
            (GameStats.update (settings g) collisions (game_stats g)) in
        set_game_stats g (HUD.update_scores (game_stats g))
    end in
  if AlienFleet.check_destroyed_status (alien_fleet g) then
    g <- _reset_level g ;;
    let g := set_settings g (Settings.increase_difficulty (settings g)) in
    let g := set_game_stats g (GameStats.update_level (game_stats g)) in
    Ok (set_game_stats g (HUD.update_level (game_stats g)))
  else Ok g.

(** One turn of the loop of [run_game] while the game is active, events
    apart. *)
Definition frame (g : t) : result t :=
  if game_active g then
    let g := set_ship g (Ship.update (settings g) (ship g)) in
    let g :=
      set_alien_fleet g
        (AlienFleet.update_fleet (settings g) (alien_fleet g)) in
    _check_collisions g
  else Ok g.

End AlienInvasion.

(** ** pygame.Rect: the centre and the point test *)

Module RectCenter.

(** [r.center] is [(x + w / 2, y + h / 2)] with C's integer division. *)
Definition center (r : Rect.t) : Z * Z :=
  (Rect.x r + Z.quot (Rect.w r) 2, Rect.y r + Z.quot (Rect.h r) 2).

(** [r.center = p] moves the rectangle and keeps its size. *)
Definition set_center (r : Rect.t) (p : Z * Z) : Rect.t :=
  Rect.mk (fst p - Z.quot (Rect.w r) 2) (snd p - Z.quot (Rect.h r) 2)
    (Rect.w r) (Rect.h r).

(** [r.collidepoint(p)]: the left and top edges belong to the rectangle, the
    right and bottom edges do not. *)
Definition collidepoint (r : Rect.t) (p : Z * Z) : bool :=
  (fst p >=? Rect.x r) && (fst p <? Rect.x r + Rect.w r) &&
  (snd p >=? Rect.y r) && (snd p <? Rect.y r + Rect.h r).

End RectCenter.

(** ** button.py *)

Module Button.

(** [Settings()] gives the button its size, which nothing changes. *)
Definition button_w : Z := 200.
Definition button_h : Z := 50.

Record t : Type := mk { rect : Rect.t }.

(** The message image has no part in the click test and is left out. *)
Definition __init__ (st : Settings.t) : t :=
  let r := Rect.mk 0 0 button_w button_h in
  mk (RectCenter.set_center r (RectCenter.center (Settings.boundaries st))).

Definition check_clicked (b : t) (mouse_pos : Z * Z) : bool :=
  RectCenter.collidepoint (rect b) mouse_pos.

End Button.

(** ** Lab14_corta1.py: the events and the loop *)

Module Events.

Inductive key : Type := K_UP | K_DOWN | K_SPACE | K_q | K_other.

(** The events of [pygame.event.get()]; a click carries the position
    [pygame.mouse.get_pos()] returns for it. *)
Inductive event : Type :=
| QUIT
| KEYDOWN (k : key)
| KEYUP (k : key)
| MOUSEBUTTONDOWN (mouse_pos : Z * Z)
| OTHER.

(** What handling events leads to: the loop goes on, the process ends in
    [sys.exit()], or an exception escapes. *)
Inductive outcome : Type :=
| Go (g : AlienInvasion.t) (d : disk)
| Exit (g : AlienInvasion.t) (d : disk)
| Abort (e : exn).

Definition set_running (g : AlienInvasion.t) (v : bool) : AlienInvasion.t :=
  AlienInvasion.mk (AlienInvasion.settings g) (AlienInvasion.game_stats g) v
    (AlienInvasion.ship g) (AlienInvasion.alien_fleet g)
    (AlienInvasion.game_active g).

(** [self.game_stats.save_scores()] followed by [pygame.quit()] and
    [sys.exit()]. *)
Definition save_and_exit (g : AlienInvasion.t) (d : disk) : outcome :=
  match
    GameStats.save_scores (GameStats.hi_score (AlienInvasion.game_stats g)) d
  with
  | Ok d' => Exit g d'
  | Raise e => Abort e
  end.

(** The play button is made once by [AlienInvasion()] from the size of the
    screen, which never changes. *)
Definition play_button (g : AlienInvasion.t) : Button.t :=
  Button.__init__ (AlienInvasion.settings g).

Definition _check_button_clicked (mouse_pos : Z * Z) (g : AlienInvasion.t)
  (d : disk) : outcome :=
  if Button.check_clicked (play_button g) mouse_pos then
    match AlienInvasion.restart_game g with
    | Ok g' => Go g' d
    | Raise e => Abort e
    end
  else Go g d.

Definition _check_keyup_event (k : key) (g : AlienInvasion.t) (d : disk)
  : outcome :=
  match k with
  | K_UP =>
      Go (AlienInvasion.set_ship g
            (Ship.set_moving_up (AlienInvasion.ship g) false)) d
  | K_DOWN =>
      Go (AlienInvasion.set_ship g
            (Ship.set_moving_down (AlienInvasion.ship g) false)) d
  | K_q => Exit (set_running g false) d
  | _ => Go g d
  end.

Definition _check_keydown_event (k : key) (g : AlienInvasion.t) (d : disk)
  : outcome :=
  match k with
  | K_UP =>
      Go (AlienInvasion.set_ship g
            (Ship.set_moving_up (AlienInvasion.ship g) true)) d
  | K_DOWN =>
      Go (AlienInvasion.set_ship g
            (Ship.set_moving_down (AlienInvasion.ship g) true)) d
  | K_SPACE =>
      let (fired, the_ship) :=
        Ship.fire (AlienInvasion.settings g) (AlienInvasion.ship g) in
      Go (AlienInvasion.set_ship g the_ship) d
  | K_q => save_and_exit (set_running g false) d
  | K_other => Go g d
  end.

(** The loop over the events of one turn; it is left when the process
    ends. *)
Fixpoint _check_events (events : list event) (g : AlienInvasion.t) (d : disk)
  : outcome :=
  match events with
  | [] => Go g d
  | ev :: rest =>
      let handled :=
        match ev with
        | QUIT => save_and_exit (set_running g false) d
        | KEYDOWN k =>
            if AlienInvasion.game_active g then _check_keydown_event k g d
            else Go g d
        | KEYUP k => _check_keyup_event k g d
        | MOUSEBUTTONDOWN mouse_pos => _check_button_clicked mouse_pos g d
        | OTHER => Go g d
        end in
      match handled with
      | Go g' d' => _check_events rest g' d'
      | stopped => stopped
      end
  end.

(** One turn of the loop of [run_game], [events] being what
    [pygame.event.get()] returns in it. *)
Definition turn (events : list event) (g : AlienInvasion.t) (d : disk)
  : outcome :=
  match _check_events events g d with
  | Go g' d' =>
      match AlienInvasion.frame g' with
      | Ok g'' => Go g'' d'
      | Raise e => Abort e
      end
  | stopped => stopped
  end.

(** [run_game] over the events of successive turns, as far as they go. *)
Fixpoint run_game (turns : list (list event)) (g : AlienInvasion.t) (d : disk)
  : outcome :=
  match turns with
  | [] => Go g d
  | events :: rest =>
      match turn events g d with
      | Go g' d' => run_game rest g' d'
      | stopped => stopped
      end
  end.

End Events.

(** * Scenarios and predicates of the statements *)

(** [n] frames of [Ship.update] with the movement flags left as they are. *)
Fixpoint ship_frames (st : Settings.t) (n : nat) (s : Ship.t) : Ship.t :=
  match n with
  | O => s
  | S n' => ship_frames st n' (Ship.update st s)
  end.

(** Frames in which the flags are set first, as key events between two
    frames leave them: one pair (up, down) per frame. *)
Fixpoint ship_run (st : Settings.t) (flags : list (bool * bool)) (s : Ship.t)
  : Ship.t :=
  match flags with
  | [] => s
  | (u, d) :: rest =>
      ship_run st rest
        (Ship.update st (Ship.set_moving_down (Ship.set_moving_up s u) d))
  end.

(** The ship's rectangle lies within the screen vertically. *)
Definition ship_on_screen (st : Settings.t) (s : Ship.t) : Prop :=
  Rect.top (Settings.boundaries st) <= Rect.top (Ship.rect s) /\
  Rect.bottom (Ship.rect s) <= Rect.bottom (Settings.boundaries st).

(** The settings after the first cleared level. *)
Definition level2_settings : Settings.t :=
  Settings.increase_difficulty Settings.new.

(** The ship as [restart_game] leaves it, the up key held down. *)
Definition ship_moving_up (st : Settings.t) : Ship.t :=
  Ship.set_moving_up (Ship.__init__ st Arsenal.__init__) true.

(** With the base speed every position the ship reaches is a multiple of the
    speed between the two edges. *)
Definition ship_on_grid (s : Ship.t) : Prop :=
  exists k : Z,
    0 <= k <= 76 /\
    Ship.y s == inject_Z (10 * k) /\
    Ship.rect s = Rect.mk 0 (10 * k) 60 40.

(** A disk on which no scores file exists yet and nothing fails. *)
Definition fresh_disk : disk := mk_disk Missing None None [].

(** The game after start-up on a fresh disk and a click on Play. *)
Definition new_game : result AlienInvasion.t :=
  started <- AlienInvasion.__init__ fresh_disk ;;
  AlienInvasion.restart_game (fst started).

(** [n] life-loss events in succession: each is one call of
    [_check_game_status]. *)
Fixpoint life_losses (n : nat) (g : AlienInvasion.t) : result AlienInvasion.t :=
  match n with
  | O => Ok g
  | S n' =>
      g' <- AlienInvasion._check_game_status g ;;
      life_losses n' g'
  end.

Definition lives (g : AlienInvasion.t) : Z :=
  GameStats.ships_left (AlienInvasion.game_stats g).

(** A scores file exists whose text is no JSON (an empty file, say). *)
Definition malformed_disk : disk := mk_disk (Present Malformed) None None [].

(** No scores file exists and its directory cannot be written to. *)
Definition unwritable_disk : disk :=
  mk_disk Missing None (Some PermissionError) [].


(** The sprites of [groupa] that overlap the sprite [b]. *)
Definition overlapping {A B : Type} (collided : A -> B -> bool)
  (groupa : list A) (b : B) : list A :=
  filter (fun a => collided a b) groupa.

(** Two aliens of one row of the layout, the fleet having scrolled ten
    pixels down, and a bullet whose rectangle reaches over both. *)
Definition alien_left : Alien.t := Alien.__init__ Settings.new 680 70.
Definition alien_right : Alien.t := Alien.__init__ Settings.new 760 70.
Definition long_bullet : Bullet.t :=
  Bullet.mk (Rect.mk 700 48 80 25) (inject_Z 700).
Definition two_alien_fleet : AlienFleet.t :=
  AlienFleet.mk [alien_left; alien_right] 1 40.

(** A bullet that reaches the left alien only. *)
Definition short_bullet : Bullet.t :=
  Bullet.mk (Rect.mk 620 48 80 25) (inject_Z 620).

(** [n] calls of [fire_bullet] in succession, nothing removed in between and
    the ship where it is: the flags returned, in order, and the group at the
    end. *)
Fixpoint fire_times (st : Settings.t) (ship_rect : Rect.t) (n : nat)
  (a : Arsenal.t) : list bool * Arsenal.t :=
  match n with
  | O => ([], a)
  | S n' =>
      let (fired, a1) := Arsenal.fire_bullet st ship_rect a in
      let (flags, a2) := fire_times st ship_rect n' a1 in
      (fired :: flags, a2)
  end.

Definition raw_columns (alien_w screen_w : Z) : Z :=
  Qfloor ((inject_Z screen_w / 2) / inject_Z alien_w)%Q.

(** The cells of the grid that [_create_rectangle_fleet] does not skip, as
    (column, row), in the order of its two loops. *)
Definition populated_cells (fleet_w fleet_h : Z) : list (Z * Z) :=
  filter
    (fun cell => negb ((snd cell mod 2 =? 0) || (fst cell mod 2 =? 0)))
    (list_prod (range fleet_w) (range fleet_h)).

Definition cell_eq_dec (a b : Z * Z) : {a = b} + {a <> b}.
Proof. decide equality; apply Z.eq_dec. Defined.

(** Some alien of the fleet touches the top or the bottom of the screen. *)
Definition on_edge (st : Settings.t) (f : AlienFleet.t) : bool :=
  existsb (Alien.check_edges st) (AlienFleet.fleet f).



(** The record on the disk, if there is one, holds a high score that is not
    negative, as every record the game writes does. *)
Definition stored_score_ok (d : disk) : Prop :=
  match file d with
  | Present (ScoresObject (Some v)) => 0 <= v
  | _ => True
  end.

(** The statistics a session reaches: [GameStats(game)] on such a disk, then
    any sequence of the four changes the controller makes to them. *)
Inductive stats_reachable : GameStats.t -> Prop :=
| reach_init (st : Settings.t) (d d' : disk) (s : GameStats.t) :
    stored_score_ok d ->
    GameStats.__init__ st d = Ok (s, d') ->
    stats_reachable s
| reach_update (st : Settings.t) (collisions : list (Alien.t * list Bullet.t))
    (s : GameStats.t) :
    stats_reachable s ->
    stats_reachable (GameStats.update st collisions s)
| reach_update_level (s : GameStats.t) :
    stats_reachable s ->
    stats_reachable (GameStats.update_level s)
| reach_life_lost (s : GameStats.t) :
    stats_reachable s ->
    stats_reachable
      (GameStats.mk (GameStats.max_score s) (GameStats.hi_score s)
         (GameStats.ships_left s - 1) (GameStats.score s) (GameStats.level s))
| reach_reset_stats (st : Settings.t) (s : GameStats.t) :
    stats_reachable s ->
    stats_reachable (GameStats.reset_stats st s).

(** What one turn of the inner loop of [_create_rectangle_fleet] adds to the
    group. *)
Definition aliens_of_cell (st : Settings.t)
  (alien_w alien_h x_offset y_offset col row : Z) : list Alien.t :=
  if (row mod 2 =? 0) || (col mod 2 =? 0) then []
  else [Alien.__init__ st (alien_w * col + x_offset)
          (alien_h * row + y_offset)].

(** The arsenal of the game holds no more bullets than the cap. *)
Definition within_cap (g : AlienInvasion.t) : Prop :=
  Z.of_nat (length (Ship.arsenal (AlienInvasion.ship g)))
  <= Settings.bullet_amount (AlienInvasion.settings g).

(** The fire key, as [_check_keydown_event] handles it: the ship fires. *)
Definition fire_key (g : AlienInvasion.t) : AlienInvasion.t :=
  AlienInvasion.set_ship g
    (snd (Ship.fire (AlienInvasion.settings g) (AlienInvasion.ship g))).

(** A scores file exists and cannot be read. *)
Definition unreadable_disk : disk :=
  mk_disk (Present (ScoresObject (Some 100))) (Some PermissionError) None [].

(** A bullet that reaches the right alien only. *)
Definition far_bullet : Bullet.t :=
  Bullet.mk (Rect.mk 770 48 80 25) (inject_Z 770).

(** A running game whose fleet is down to two aliens, each with a bullet on
    it. *)
Definition last_two_game : AlienInvasion.t :=
  AlienInvasion.mk Settings.new (GameStats.mk 0 0 3 0 1) true
    (Ship.set_arsenal (Ship.__init__ Settings.new Arsenal.__init__)
       [short_bullet; far_bullet])
    two_alien_fleet true.




(** * Further predicates and scenarios *)

(** The rectangle of an alien lies in the right half of the screen and
    strictly between its top and its bottom. *)
Definition alien_inside (st : Settings.t) (a : Alien.t) : Prop :=
  Rect.w (Alien.rect a) = Settings.alien_w st /\
  Rect.h (Alien.rect a) = Settings.alien_h st /\
  Settings.screen_w st / 2 < Rect.left (Alien.rect a) /\
  Rect.right (Alien.rect a) < Settings.screen_w st /\
  0 < Rect.top (Alien.rect a) /\
  Rect.bottom (Alien.rect a) < Settings.screen_h st.

(** The three parts of [_check_collisions], in their order: the ship against
    the fleet, the fleet against the left of the screen, the projectiles
    against the fleet with the test for a cleared level. *)
Definition ship_phase (g : AlienInvasion.t) : result AlienInvasion.t :=
  let (hit, the_ship) :=
    Ship.check_collisions Alien.rect (AlienInvasion.settings g)
      (AlienFleet.fleet (AlienInvasion.alien_fleet g)) (AlienInvasion.ship g) in
  let g := AlienInvasion.set_ship g the_ship in
  if hit then AlienInvasion._check_game_status g else Ok g.

Definition left_phase (g : AlienInvasion.t) : result AlienInvasion.t :=
  if AlienFleet.check_fleet_left (AlienInvasion.alien_fleet g)
  then AlienInvasion._check_game_status g else Ok g.

Definition bullet_phase (g : AlienInvasion.t) : result AlienInvasion.t :=
  let '(collisions, the_fleet, the_arsenal) :=
    AlienFleet.check_collisions (AlienInvasion.alien_fleet g)
      (Ship.arsenal (AlienInvasion.ship g)) in
  let g := AlienInvasion.set_alien_fleet g the_fleet in
  let g :=
    AlienInvasion.set_ship g
      (Ship.set_arsenal (AlienInvasion.ship g) the_arsenal) in
  let g :=
    match collisions with
    | [] => g
    | _ :: _ =>
        let g :=
          AlienInvasion.set_game_stats g
            (GameStats.update (AlienInvasion.settings g) collisions
               (AlienInvasion.game_stats g)) in
        AlienInvasion.set_game_stats g
          (HUD.update_scores (AlienInvasion.game_stats g))
    end in
  if AlienFleet.check_destroyed_status (AlienInvasion.alien_fleet g) then
    g <- AlienInvasion._reset_level g ;;
    let g :=
      AlienInvasion.set_settings g
        (Settings.increase_difficulty (AlienInvasion.settings g)) in
    let g :=
      AlienInvasion.set_game_stats g
        (GameStats.update_level (AlienInvasion.game_stats g)) in
    Ok (AlienInvasion.set_game_stats g
          (HUD.update_level (AlienInvasion.game_stats g)))
  else Ok g.

(** How the statistics of a game may differ after a step: at most one life
    less, at most one level more, no lower maximum or high score. *)
Definition stats_advance (s s' : GameStats.t) : Prop :=
  GameStats.ships_left s - 1 <= GameStats.ships_left s' <= GameStats.ships_left s /\
  GameStats.level s <= GameStats.level s' <= GameStats.level s + 1 /\
  GameStats.max_score s <= GameStats.max_score s' /\
  GameStats.hi_score s <= GameStats.hi_score s'.

(** A running game in which an alien lies on the ship. *)
Definition rammed_game : AlienInvasion.t :=
  AlienInvasion.set_alien_fleet last_two_game
    (AlienFleet.mk [Alien.__init__ Settings.new 0 380] 1 40).



(** [n] advances of the arsenal with no shot fired in between. *)
Definition advance_times (st : Settings.t) (n : nat) (a : Arsenal.t)
  : Arsenal.t :=
  Nat.iter n (Arsenal.update_arsenal st) a.


(** The aliens of one layout on the 1200 by 800 screen: 13 columns and 19
    rows of cells, offsets 640 and 20. *)
Definition base_layout : list Alien.t :=
  map (fun cell =>
         Alien.__init__ Settings.new (640 + fst cell * 40) (20 + snd cell * 40))
    (populated_cells 13 19).

(** An event that neither ends the process nor clicks: a key other than Q
    pressed or released, or an event the loop does not look at. *)
Definition key_event (ev : Events.event) : Prop :=
  match ev with
  | Events.KEYDOWN k | Events.KEYUP k => k <> Events.K_q
  | Events.OTHER => True
  | Events.QUIT | Events.MOUSEBUTTONDOWN _ => False
  end.

(** Two games that differ in the movement flags and the arsenal of the ship
    at most. *)
Definition same_but_keys (g g' : AlienInvasion.t) : Prop :=
  AlienInvasion.settings g' = AlienInvasion.settings g /\
  AlienInvasion.game_stats g' = AlienInvasion.game_stats g /\
  AlienInvasion.running g' = AlienInvasion.running g /\
  AlienInvasion.alien_fleet g' = AlienInvasion.alien_fleet g /\
  AlienInvasion.game_active g' = AlienInvasion.game_active g /\
  Ship.rect (AlienInvasion.ship g') = Ship.rect (AlienInvasion.ship g) /\
  Ship.y (AlienInvasion.ship g') = Ship.y (AlienInvasion.ship g).

(** * Properties *)

(** ** The ship and the screen's vertical bounds *)

Lemma trunc_comp (p q : Q) : p == q -> trunc p = trunc q.
Proof.
  intros E. unfold trunc.
  destruct (Qle_bool 0 p) eqn:Hp, (Qle_bool 0 q) eqn:Hq.
  - now apply Qfloor_comp.
  - rewrite Qle_bool_iff in Hp. rewrite E in Hp.
    rewrite <- Qle_bool_iff in Hp. congruence.
  - rewrite Qle_bool_iff in Hq. rewrite <- E in Hq.
    rewrite <- Qle_bool_iff in Hq. congruence.
  - now apply Qceiling_comp.
Qed.

Lemma trunc_inject_Z (z : Z) : trunc (inject_Z z) = z.
Proof.
  unfold trunc. destruct (Qle_bool 0 (inject_Z z)).
  - apply Qfloor_Z.
  - apply Qceiling_Z.
Qed.

Lemma ship_on_grid_init (a : Arsenal.t) :
  ship_on_grid (Ship.__init__ Settings.new a).
Proof.
  exists 38. split; [lia|]. split; reflexivity.
Qed.

Lemma ship_on_grid_update (s : Ship.t) :
  ship_on_grid s -> ship_on_grid (Ship.update Settings.new s).
Proof.
  intros (k & Hk & Hy & Hr).
  unfold Ship.update, Ship._update_ship_movement, ship_on_grid.
  cbn [Ship.set_arsenal Ship.rect Ship.y Ship.moving_up Ship.moving_down].
  rewrite Hr.
  change (Rect.top (Rect.mk 0 (10 * k) 60 40)) with (10 * k).
  change (Rect.bottom (Rect.mk 0 (10 * k) 60 40)) with (10 * k + 40).
  change (Rect.top (Settings.boundaries Settings.new)) with 0.
  change (Rect.bottom (Settings.boundaries Settings.new)) with 800.
  change (Settings.ship_speed Settings.new) with (inject_Z 10).
  set (up := Ship.moving_up s && (10 * k >? 0)).
  set (down := Ship.moving_down s && (10 * k + 40 <? 800)).
  assert (Hup : up = true -> 1 <= k).
  { unfold up. rewrite andb_true_iff. intros [_ H]. lia. }
  assert (Hdown : down = true -> k <= 75).
  { unfold down. rewrite andb_true_iff. intros [_ H]. lia. }
  exists (k + (if down then 1 else 0) - (if up then 1 else 0)).
  assert (Hq :
    (if down
     then (if up then Ship.y s - inject_Z 10 else Ship.y s) + inject_Z 10
     else (if up then Ship.y s - inject_Z 10 else Ship.y s))%Q
    == inject_Z (10 * (k + (if down then 1 else 0) - (if up then 1 else 0)))).
  { destruct up, down; rewrite Hy;
      unfold Qeq, Qminus, Qplus, Qopp, inject_Z; cbn [Qnum Qden]; lia. }
  split.
  - destruct up, down; try specialize (Hup eq_refl);
      try specialize (Hdown eq_refl); lia.
  - split; [exact Hq|].
    unfold Rect.set_y. cbn [Rect.x Rect.w Rect.h].
    rewrite (trunc_comp _ _ Hq), trunc_inject_Z. reflexivity.
Qed.

Lemma ship_on_grid_flags (s : Ship.t) (u d : bool) :
  ship_on_grid s ->
  ship_on_grid (Ship.set_moving_down (Ship.set_moving_up s u) d).
Proof. intros (k & H); exists k; exact H. Qed.

Lemma ship_on_grid_on_screen (s : Ship.t) :
  ship_on_grid s -> ship_on_screen Settings.new s.
Proof.
  intros (k & Hk & _ & Hr). unfold ship_on_screen. rewrite Hr.
  unfold Rect.top, Rect.bottom, Settings.boundaries, Rect.get_rect.
  cbn [Rect.y Rect.h Settings.screen_h Settings.new
       Settings.initialize_dynamic_settings]. lia.
Qed.

(** With the base speed of 10 the ship, started from the centre, stays on
    the screen whatever keys are held in whatever frames: the distance to
    either edge is a multiple of the speed. *)
Theorem ship_on_screen_at_base_speed (flags : list (bool * bool)) (a : Arsenal.t) :
  ship_on_screen Settings.new
    (ship_run Settings.new flags (Ship.__init__ Settings.new a)).
Proof.
  apply ship_on_grid_on_screen.
  generalize (ship_on_grid_init a).
  generalize (Ship.__init__ Settings.new a).
  induction flags as [|[u d] rest IH]; intros s Hs; cbn [ship_run].
  - exact Hs.
  - apply IH, ship_on_grid_update, ship_on_grid_flags, Hs.
Qed.

(** C1 (the code departs from it).  After the first cleared level the ship
    speed is 11; the ship starts at the centre with its top at 380 and the up
    key is held.  After 34 frames its top is at 6, inside the screen, the
    guard [rect.top > boundaries.top] lets it move once more, and after the
    35th call of [Ship.update] its top is at -5, above the screen.  The
    settings and the ship are those of a game whose first level was cleared
    with the ship at rest. *)
Theorem ship_leaves_screen_at_level2_speed :
  (exists g,
     AlienInvasion._check_collisions last_two_game = Ok g /\
     AlienInvasion.settings g = level2_settings /\
     Ship.set_moving_up (AlienInvasion.ship g) true
     = ship_moving_up level2_settings) /\
  Settings.ship_speed level2_settings == 11 /\
  Rect.top (Ship.rect (ship_moving_up level2_settings)) = 380 /\
  Rect.top (Ship.rect
    (ship_frames level2_settings 34 (ship_moving_up level2_settings))) = 6 /\
  Rect.top (Ship.rect
    (ship_frames level2_settings 35 (ship_moving_up level2_settings))) = -5 /\
  ~ ship_on_screen level2_settings
      (ship_frames level2_settings 35 (ship_moving_up level2_settings)).
Proof.
  split.
  { let v := eval vm_compute in (AlienInvasion._check_collisions last_two_game) in
    match v with Ok ?g => exists g end.
    split; [vm_compute; reflexivity|]. split; vm_compute; reflexivity. }
  split; [reflexivity|].
  split; [reflexivity|].
  split; [vm_compute; reflexivity|].
  assert (H : Rect.top (Ship.rect
    (ship_frames level2_settings 35 (ship_moving_up level2_settings))) = -5)
    by (vm_compute; reflexivity).
  split; [exact H|].
  unfold ship_on_screen. rewrite H.
  change (Rect.top (Settings.boundaries level2_settings)) with 0. lia.
Qed.

(** ** How far the ship can leave the screen *)

Lemma trunc_above (q : Q) : (q < inject_Z (trunc q) + 1)%Q.
Proof.
  unfold trunc. destruct (Qle_bool 0 q).
  - pose proof (Qlt_floor q) as H. rewrite inject_Z_plus in H. exact H.
  - pose proof (Qle_ceiling q) as H. lra.
Qed.









(** ** Life loss and the end of the game *)

Lemma calculate_fleet_size_ok (alien_h screen_h alien_w screen_w : Z) :
  alien_h <> 0 -> alien_w <> 0 ->
  exists size,
    AlienFleet.calculate_fleet_size alien_h screen_h alien_w screen_w = Ok size.
Proof.
  intros Hh Hw. unfold AlienFleet.calculate_fleet_size.
  destruct (Z.eqb_spec alien_h 0) as [|_]; [contradiction|].
  destruct (Z.eqb_spec alien_w 0) as [|_]; [contradiction|].
  eexists; reflexivity.
Qed.

(** Laying out the fleet succeeds when the alien's sides are not zero, and
    only the group of the fleet changes. *)
Lemma create_fleet_ok (st : Settings.t) (f : AlienFleet.t) :
  Settings.alien_h st <> 0 -> Settings.alien_w st <> 0 ->
  exists f',
    AlienFleet.create_fleet st f = Ok f' /\
    AlienFleet.fleet_direction f' = AlienFleet.fleet_direction f /\
    AlienFleet.fleet_drop_speed f' = AlienFleet.fleet_drop_speed f.
Proof.
  intros Hh Hw. unfold AlienFleet.create_fleet.
  destruct (calculate_fleet_size_ok (Settings.alien_h st) (Settings.screen_h st)
              (Settings.alien_w st) (Settings.screen_w st) Hh Hw)
    as [[fleet_h fleet_w] E].
  rewrite E. cbn [bind].
  destruct (AlienFleet.calculate_offsets _ _ _ _ _ _) as [x_offset y_offset].
  eexists; split; [reflexivity|]. split; reflexivity.
Qed.

(** A level reset empties the arsenal, lays the fleet out anew from an empty
    group, and leaves the statistics, the settings and the active flag. *)
Lemma reset_level_ok (g : AlienInvasion.t) :
  Settings.alien_h (AlienInvasion.settings g) <> 0 ->
  Settings.alien_w (AlienInvasion.settings g) <> 0 ->
  exists g',
    AlienInvasion._reset_level g = Ok g' /\
    AlienInvasion.settings g' = AlienInvasion.settings g /\
    AlienInvasion.game_stats g' = AlienInvasion.game_stats g /\
    AlienInvasion.game_active g' = AlienInvasion.game_active g /\
    AlienInvasion.running g' = AlienInvasion.running g /\
    AlienInvasion.ship g' = Ship.set_arsenal (AlienInvasion.ship g) [] /\
    AlienFleet.create_fleet (AlienInvasion.settings g)
      (AlienFleet.set_fleet (AlienInvasion.alien_fleet g) [])
    = Ok (AlienInvasion.alien_fleet g').
Proof.
  intros Hh Hw. unfold AlienInvasion._reset_level.
  cbn [AlienInvasion.set_ship AlienInvasion.set_alien_fleet
       AlienInvasion.settings AlienInvasion.alien_fleet AlienInvasion.ship
       AlienInvasion.game_stats AlienInvasion.running
       AlienInvasion.game_active].
  destruct (create_fleet_ok (AlienInvasion.settings g)
              (AlienFleet.set_fleet (AlienInvasion.alien_fleet g) []) Hh Hw)
    as (f' & E & _).
  rewrite E. cbn [bind]. eexists. split; [reflexivity|].
  cbn. repeat split; reflexivity.
Qed.

(** What one life-loss event does. *)
Lemma check_game_status_cases (g : AlienInvasion.t) :
  Settings.alien_h (AlienInvasion.settings g) <> 0 ->
  Settings.alien_w (AlienInvasion.settings g) <> 0 ->
  exists g',
    AlienInvasion._check_game_status g = Ok g' /\
    AlienInvasion.settings g' = AlienInvasion.settings g /\
    GameStats.score (AlienInvasion.game_stats g')
      = GameStats.score (AlienInvasion.game_stats g) /\
    GameStats.level (AlienInvasion.game_stats g')
      = GameStats.level (AlienInvasion.game_stats g) /\
    (lives g > 0 ->
       lives g' = lives g - 1 /\
       AlienInvasion.game_active g' = AlienInvasion.game_active g /\
       Ship.arsenal (AlienInvasion.ship g') = [] /\
       AlienFleet.create_fleet (AlienInvasion.settings g)
         (AlienFleet.set_fleet (AlienInvasion.alien_fleet g) [])
       = Ok (AlienInvasion.alien_fleet g')) /\
    (lives g <= 0 -> g' = AlienInvasion.set_game_active g false).
Proof.
  intros Hh Hw. unfold AlienInvasion._check_game_status, lives.
  destruct (Z.gtb_spec (GameStats.ships_left (AlienInvasion.game_stats g)) 0)
    as [Hpos|Hzero].
  - set (g1 := AlienInvasion.set_game_stats g _).
    destruct (reset_level_ok g1 Hh Hw)
      as (g' & E & Hst & Hstats & Hact & _ & Hship & Hfleet).
    exists g'. rewrite E, Hst, Hstats, Hact, Hship.
    split; [reflexivity|]. split; [reflexivity|].
    split; [reflexivity|]. split; [reflexivity|].
    split; [|lia]. intros _.
    split; [reflexivity|]. split; [reflexivity|].
    split; [reflexivity|]. exact Hfleet.
  - eexists. split; [reflexivity|].
    split; [reflexivity|]. split; [reflexivity|]. split; [reflexivity|].
    split; [lia|]. intros _. reflexivity.
Qed.

(** C2 as amended.  A life-loss event with lives left decrements the lives
    by one and resets the level, the game staying active, the score and the
    level kept; with no life left it sets game-active to false.  From three
    lives two events lead to one life, the third to no life with the game
    still active, and only the fourth ends the game. *)
Theorem life_loss_events (g : AlienInvasion.t) :
  Settings.alien_h (AlienInvasion.settings g) <> 0 ->
  Settings.alien_w (AlienInvasion.settings g) <> 0 ->
  (exists g',
     AlienInvasion._check_game_status g = Ok g' /\
     GameStats.score (AlienInvasion.game_stats g')
       = GameStats.score (AlienInvasion.game_stats g) /\
     GameStats.level (AlienInvasion.game_stats g')
       = GameStats.level (AlienInvasion.game_stats g) /\
     (lives g > 0 ->
        lives g' = lives g - 1 /\
        AlienInvasion.game_active g' = AlienInvasion.game_active g /\
        Ship.arsenal (AlienInvasion.ship g') = [] /\
        AlienFleet.create_fleet (AlienInvasion.settings g)
          (AlienFleet.set_fleet (AlienInvasion.alien_fleet g) [])
        = Ok (AlienInvasion.alien_fleet g')) /\
     (lives g <= 0 -> g' = AlienInvasion.set_game_active g false)) /\
  (lives g = 3 -> AlienInvasion.game_active g = true ->
   exists g2 g3 g4,
     life_losses 2 g = Ok g2 /\
     lives g2 = 1 /\ AlienInvasion.game_active g2 = true /\
     life_losses 3 g = Ok g3 /\
     lives g3 = 0 /\ AlienInvasion.game_active g3 = true /\
     life_losses 4 g = Ok g4 /\
     lives g4 = 0 /\ AlienInvasion.game_active g4 = false).
Proof.
  intros Hh Hw. split.
  - destruct (check_game_status_cases g Hh Hw)
      as (g' & E & _ & Hscore & Hlevel & Hpos & Hzero).
    exists g'. repeat split; try assumption; try (apply Hpos; assumption).
  - intros L3 A.
    destruct (check_game_status_cases g Hh Hw)
      as (g1 & E1 & S1 & _ & _ & P1 & _).
    destruct P1 as (L1 & A1 & _); [lia|].
    rewrite <- S1 in Hh, Hw.
    destruct (check_game_status_cases g1 Hh Hw)
      as (g2 & E2 & S2 & _ & _ & P2 & _).
    destruct P2 as (L2 & A2 & _); [lia|].
    rewrite <- S2 in Hh, Hw.
    destruct (check_game_status_cases g2 Hh Hw)
      as (g3 & E3 & S3 & _ & _ & P3 & _).
    destruct P3 as (L3' & A3 & _); [lia|].
    rewrite <- S3 in Hh, Hw.
    destruct (check_game_status_cases g3 Hh Hw)
      as (g4 & E4 & _ & _ & _ & _ & Z4).
    specialize (Z4 ltac:(lia)).
    exists g2, g3, g4. cbn [life_losses].
    rewrite E1; cbn [bind]. rewrite E2; cbn [bind].
    rewrite E3; cbn [bind]. rewrite E4; cbn [bind].
    repeat split; try reflexivity; try congruence; try lia.
    + subst g4. unfold lives in *. cbn. lia.
    + subst g4. reflexivity.
Qed.

(** The theorem at the game started on a fresh disk: three lives, the game
    active, and the aliens 40 by 40. *)
Lemma life_loss_events_witness :
  exists g,
    new_game = Ok g /\ lives g = 3 /\ AlienInvasion.game_active g = true /\
    exists g2 g3 g4,
      life_losses 2 g = Ok g2 /\
      lives g2 = 1 /\ AlienInvasion.game_active g2 = true /\
      life_losses 3 g = Ok g3 /\
      lives g3 = 0 /\ AlienInvasion.game_active g3 = true /\
      life_losses 4 g = Ok g4 /\
      lives g4 = 0 /\ AlienInvasion.game_active g4 = false.
Proof.
  let v := eval vm_compute in new_game in
  match v with Ok ?g => exists g end.
  split; [vm_compute; reflexivity|].
  split; [reflexivity|]. split; [reflexivity|].
  apply life_loss_events; cbn; try discriminate; reflexivity.
Defined.

(** C2 as stated fails: started with three lives, the game is still active
    after the third life-loss event, which only brings the lives to zero. *)
Lemma third_life_loss_leaves_game_active :
  exists g g3,
    new_game = Ok g /\ lives g = 3 /\ AlienInvasion.game_active g = true /\
    life_losses 3 g = Ok g3 /\
    lives g3 = 0 /\ AlienInvasion.game_active g3 <> false.
Proof.
  let v := eval vm_compute in new_game in
  match v with
  | Ok ?g =>
      exists g;
      let v3 := eval vm_compute in (life_losses 3 g) in
      match v3 with Ok ?g3 => exists g3 end
  end.
  split; [vm_compute; reflexivity|].
  split; [reflexivity|]. split; [reflexivity|].
  split; [vm_compute; reflexivity|].
  split; [reflexivity|]. cbn. discriminate.
Qed.

(** ** Persistence of the high score *)

(** The size test of [init_saved_scores] does not look at the file: an
    existing file is always read and parsed. *)
Lemma init_saved_scores_existing (d : disk) :
  GameStats.path_exists d = true ->
  GameStats.init_saved_scores d =
    (scores <- GameStats.read_and_loads d ;;
     hi <- GameStats.get_hi_score scores ;;
     Ok (hi, d)).
Proof.
  intros E. unfold GameStats.init_saved_scores. rewrite E. reflexivity.
Qed.


(** [save_scores] passes on every exception of the write but
    [FileNotFoundError]. *)
Lemma save_scores_raises (hi : Z) (d : disk) (e : exn) :
  write_error d = Some e -> e <> FileNotFoundError ->
  GameStats.save_scores hi d = Raise e.
Proof.
  intros E Hne. unfold GameStats.save_scores, GameStats.write_text.
  rewrite E. destruct e; try reflexivity. contradiction.
Qed.

(** C3 (the code departs from it).  A scores file that exists and does not
    parse makes [init_saved_scores], and with it the construction of the
    game, raise [JSONDecodeError]: no high score of 0 is assumed and no
    default record is written.  Neither is a file that cannot be read
    taken for no score, and a write that fails with [PermissionError] is
    not caught, at start-up or when the scores are saved. *)
Theorem malformed_scores_abort_startup :
  GameStats.init_saved_scores malformed_disk = Raise JSONDecodeError /\
  AlienInvasion.__init__ malformed_disk = Raise JSONDecodeError /\
  AlienInvasion.__init__ unreadable_disk = Raise PermissionError /\
  AlienInvasion.__init__ unwritable_disk = Raise PermissionError /\
  (forall hi, GameStats.save_scores hi unwritable_disk = Raise PermissionError).
Proof.
  split; [reflexivity|]. split; [reflexivity|]. split; [reflexivity|].
  split; [reflexivity|].
  intros hi. apply save_scores_raises; [reflexivity | discriminate].
Qed.

(** ** Collisions of the fleet with the projectiles *)

Section GroupCollide.

Context {A B : Type}.
Variable collided : A -> B -> bool.

Lemma filter_split (p : B -> bool) (l : list B) :
  Permutation (filter p l ++ filter (fun b => negb (p b)) l) l.
Proof.
  induction l as [|b l IH]; cbn; [constructor|].
  destruct (p b); cbn.
  - now constructor.
  - rewrite <- Permutation_middle. now constructor.
Qed.

Lemma filter_filter (p q : B -> bool) (l : list B) :
  filter p (filter q l) = filter (fun b => q b && p b) l.
Proof.
  induction l as [|b l IH]; cbn; [reflexivity|].
  destruct (q b); cbn; [destruct (p b)|]; now rewrite IH.
Qed.

(** The projectiles left are those no sprite of [groupa] overlapped. *)
Lemma groupcollide_groupb (groupa : list A) :
  forall groupb,
    snd (Sprite.groupcollide collided groupa groupb)
    = filter (fun b => negb (existsb (fun a => collided a b) groupa)) groupb.
Proof.
  induction groupa as [|a rest IH]; intros groupb; cbn.
  - induction groupb as [|b l IHl]; cbn; congruence.
  - specialize (IH (filter (fun b => negb (collided a b)) groupb)).
    destruct (Sprite.groupcollide collided rest _) as [[crashed ga'] gb'].
    cbn in IH.
    assert (E : gb' = filter
              (fun b => negb (collided a b || existsb (fun a0 => collided a0 b) rest))
              groupb).
    { rewrite IH, filter_filter. apply filter_ext. intros b.
      now rewrite negb_orb. }
    destruct (filter (collided a) groupb); cbn; exact E.
Qed.

(** Every sprite of [groupa] is either a key of the dictionary or left in
    its group, and every sprite of [groupb] is either in exactly one list
    of the dictionary or left in its group. *)
Lemma groupcollide_partition (groupa : list A) :
  forall groupb,
    let '(crashed, groupa', groupb') :=
      Sprite.groupcollide collided groupa groupb in
    Permutation (map fst crashed ++ groupa') groupa /\
    Permutation (concat (map snd crashed) ++ groupb') groupb.
Proof.
  induction groupa as [|a rest IH]; intros groupb; cbn.
  - split; constructor || apply Permutation_refl.
  - specialize (IH (filter (fun b => negb (collided a b)) groupb)).
    pose proof (filter_split (collided a) groupb) as Hsplit.
    destruct (Sprite.groupcollide collided rest _) as [[crashed ga'] gb'].
    destruct IH as [IHa IHb].
    destruct (filter (collided a) groupb) as [|b0 hits] eqn:Hhits.
    + split.
      * rewrite <- Permutation_middle. now constructor.
      * cbn in Hsplit. now rewrite IHb.
    + cbn [map fst snd concat]. split.
      * cbn. now constructor.
      * rewrite <- app_assoc, IHb. exact Hsplit.
Qed.

(** The entries of the dictionary: a destroyed sprite with the non-empty
    list of the projectiles it overlapped. *)
Lemma groupcollide_crashed (groupa : list A) :
  forall groupb a hits,
    In (a, hits) (fst (fst (Sprite.groupcollide collided groupa groupb))) ->
    hits <> [] /\
    forall b, In b hits -> In b groupb /\ collided a b = true.
Proof.
  induction groupa as [|a0 rest IH]; intros groupb a hits; cbn.
  - intros [].
  - specialize (IH (filter (fun b => negb (collided a0 b)) groupb) a hits).
    destruct (Sprite.groupcollide collided rest _) as [[crashed ga'] gb'].
    cbn in IH.
    assert (Hrest : In (a, hits) crashed ->
              hits <> [] /\
              forall b, In b hits -> In b groupb /\ collided a b = true).
    { intros Hin. destruct (IH Hin) as [Hne Hall]. split; [exact Hne|].
      intros b Hb. destruct (Hall b Hb) as [Hf Hc]. split; [|exact Hc].
      apply filter_In in Hf. tauto. }
    destruct (filter (collided a0) groupb) as [|b0 l] eqn:Hhits; cbn.
    + exact Hrest.
    + intros [E|Hin]; [|now apply Hrest].
      injection E as <- <-. split; [discriminate|].
      intros b Hb. rewrite <- Hhits in Hb. apply filter_In in Hb. exact Hb.
Qed.

(** A sprite of [groupa] is left only if every projectile it overlapped
    was taken by a sprite that was destroyed. *)
Lemma groupcollide_survivor (groupa : list A) :
  forall groupb a b,
    In a (snd (fst (Sprite.groupcollide collided groupa groupb))) ->
    In b groupb -> collided a b = true ->
    exists a' hits,
      In (a', hits) (fst (fst (Sprite.groupcollide collided groupa groupb))) /\
      In b hits.
Proof.
  induction groupa as [|a0 rest IH]; intros groupb a b; cbn.
  - intros [].
  - specialize (IH (filter (fun b => negb (collided a0 b)) groupb) a b).
    destruct (Sprite.groupcollide collided rest _) as [[crashed ga'] gb'].
    cbn in IH.
    destruct (filter (collided a0) groupb) as [|b0 l] eqn:Hhits; cbn.
    + intros [<-|Hin] Hb Hc.
      * assert (Hf : In b (filter (collided a0) groupb))
          by (apply filter_In; split; assumption).
        rewrite Hhits in Hf. destruct Hf.
      * apply IH; try assumption. apply filter_In. split; [assumption|].
        destruct (collided a0 b) eqn:E0; [|reflexivity].
        assert (Hf : In b (filter (collided a0) groupb))
          by (apply filter_In; split; assumption).
        rewrite Hhits in Hf. destruct Hf.
    + intros Hin Hb Hc.
      destruct (collided a0 b) eqn:E0.
      * exists a0, (b0 :: l). split; [now left|].
        rewrite <- Hhits. apply filter_In. split; assumption.
      * destruct IH as (a' & hits & Hin' & Hb'); try assumption.
        { apply filter_In. split; [assumption|]. now rewrite E0. }
        exists a', hits. split; [now right|assumption].
Qed.

(** When no projectile overlaps two sprites of [groupa], the sprites left
    are exactly those that overlapped no projectile. *)
Lemma groupcollide_groupa_single (groupa : list A) :
  forall groupb,
    (forall b, In b groupb ->
               (length (overlapping collided groupa b) <= 1)%nat) ->
    snd (fst (Sprite.groupcollide collided groupa groupb))
    = filter (fun a => negb (existsb (collided a) groupb)) groupa.
Proof.
  induction groupa as [|a0 rest IH]; intros groupb Hone; cbn.
  - reflexivity.
  - specialize (IH (filter (fun b => negb (collided a0 b)) groupb)).
    destruct (Sprite.groupcollide collided rest _) as [[crashed ga'] gb'].
    cbn in IH.
    assert (Hrest : ga' = filter (fun a => negb (existsb (collided a) groupb)) rest).
    { rewrite IH.
      - apply filter_ext_in. intros a Ha. f_equal.
        apply eq_true_iff_eq. rewrite !existsb_exists. split.
        + intros (b & Hb & Hc). apply filter_In in Hb. exists b. tauto.
        + intros (b & Hb & Hc). exists b. split; [|exact Hc].
          apply filter_In. split; [exact Hb|].
          destruct (collided a0 b) eqn:E0; [|reflexivity].
          specialize (Hone b Hb). unfold overlapping in Hone.
          cbn in Hone. rewrite E0 in Hone. cbn in Hone.
          assert (Hin : In a (filter (fun a => collided a b) rest))
            by (apply filter_In; split; assumption).
          destruct (filter (fun a => collided a b) rest); [destruct Hin|].
          cbn in Hone. lia.
      - intros b Hb. apply filter_In in Hb. destruct Hb as [Hb _].
        specialize (Hone b Hb). unfold overlapping in *. cbn in Hone.
        destruct (collided a0 b); cbn in Hone; lia. }
    assert (Hhead : existsb (collided a0) groupb = false <->
                    filter (collided a0) groupb = []).
    { split.
      - intros E. destruct (filter (collided a0) groupb) as [|b l] eqn:Hf;
          [reflexivity|].
        assert (Hin : In b (filter (collided a0) groupb))
          by (rewrite Hf; now left).
        apply filter_In in Hin.
        assert (existsb (collided a0) groupb = true)
          by (apply existsb_exists; exists b; exact Hin).
        congruence.
      - intros E. destruct (existsb (collided a0) groupb) eqn:Hex;
          [|reflexivity].
        apply existsb_exists in Hex. destruct Hex as (b & Hb & Hc).
        assert (Hin : In b (filter (collided a0) groupb))
          by (apply filter_In; split; assumption).
        rewrite E in Hin. destruct Hin. }
    destruct (filter (collided a0) groupb) as [|b0 l] eqn:Hhits; cbn.
    + rewrite (proj2 Hhead eq_refl). cbn. now rewrite Hrest.
    + destruct (existsb (collided a0) groupb) eqn:Hex; cbn.
      * exact Hrest.
      * destruct Hhead as [Hh _]. specialize (Hh eq_refl). discriminate.
Qed.

End GroupCollide.

(** One addition of [alien_points] per entry of the dictionary. *)
Lemma update_score_length {K V : Type} (st : Settings.t)
  (collisions : list (K * V)) (s : GameStats.t) :
  GameStats.score (GameStats._update_score st collisions s)
  = GameStats.score s
    + Settings.alien_points st * Z.of_nat (length collisions).
Proof.
  unfold GameStats._update_score.
  revert s. induction collisions as [|c l IH]; intros s.
  - cbn. lia.
  - cbn [map fold_left length]. rewrite IH. cbn [GameStats.score]. lia.
Qed.

Lemma update_score_only (st : Settings.t)
  (collisions : list (Alien.t * list Bullet.t)) (s : GameStats.t) :
  GameStats.score (GameStats.update st collisions s)
  = GameStats.score s
    + Settings.alien_points st * Z.of_nat (length collisions).
Proof.
  unfold GameStats.update, GameStats._update_hi_score,
    GameStats._update_max_score.
  rewrite <- update_score_length.
  set (s1 := GameStats._update_score st collisions s).
  destruct (GameStats.score s1 >? GameStats.max_score s1); cbn;
    match goal with |- context [if ?c then _ else _] => destruct c end;
    reflexivity.
Qed.

(** C4 as amended.  After [check_collisions]: the projectiles left are
    exactly those that overlapped no enemy of the input; an enemy that
    overlapped a projectile is left only when that projectile was taken by
    an enemy that was destroyed, so that no overlapped enemy is left when no
    projectile overlaps two enemies; every projectile of the input is in the
    list of exactly one destroyed enemy or left in the group; the destroyed
    enemies are the keys of the dictionary, each with the projectiles it
    overlapped, and each adds [alien_points] once to the score. *)
Theorem fleet_collisions_resolved (st : Settings.t) (f : AlienFleet.t)
  (bullets : Arsenal.t) (s : GameStats.t) :
  let '(collisions, f', bullets') := AlienFleet.check_collisions f bullets in
  bullets' =
    filter
      (fun b =>
         negb (existsb (fun a => AlienFleet.collided a b) (AlienFleet.fleet f)))
      bullets /\
  (forall a b,
     In a (AlienFleet.fleet f') -> In b bullets ->
     AlienFleet.collided a b = true ->
     exists a' hits, In (a', hits) collisions /\ In b hits) /\
  ((forall b, In b bullets ->
      (length (overlapping AlienFleet.collided (AlienFleet.fleet f) b) <= 1)%nat) ->
   AlienFleet.fleet f' =
     filter (fun a => negb (existsb (AlienFleet.collided a) bullets))
       (AlienFleet.fleet f)) /\
  Permutation (concat (map snd collisions) ++ bullets') bullets /\
  Permutation (map fst collisions ++ AlienFleet.fleet f') (AlienFleet.fleet f) /\
  (forall a hits,
     In (a, hits) collisions ->
     hits <> [] /\
     forall b, In b hits -> In b bullets /\ AlienFleet.collided a b = true) /\
  GameStats.score (GameStats.update st collisions s)
  = GameStats.score s
    + Settings.alien_points st * Z.of_nat (length collisions).
Proof.
  unfold AlienFleet.check_collisions.
  pose proof (groupcollide_groupb AlienFleet.collided (AlienFleet.fleet f) bullets) as Hb.
  pose proof (groupcollide_partition AlienFleet.collided (AlienFleet.fleet f) bullets) as Hp.
  pose proof (groupcollide_crashed AlienFleet.collided (AlienFleet.fleet f) bullets) as Hc.
  pose proof (groupcollide_survivor AlienFleet.collided (AlienFleet.fleet f) bullets) as Hs.
  pose proof (groupcollide_groupa_single AlienFleet.collided (AlienFleet.fleet f) bullets) as H1.
  destruct (Sprite.groupcollide AlienFleet.collided (AlienFleet.fleet f) bullets)
    as [[collisions fleet'] bullets'].
  cbn [fst snd AlienFleet.set_fleet AlienFleet.fleet] in *.
  destruct Hp as [Hpa Hpb].
  split; [exact Hb|]. split; [exact Hs|]. split; [exact H1|].
  split; [exact Hpb|]. split; [exact Hpa|]. split; [exact Hc|].
  apply update_score_only.
Qed.

(** The theorem at a fleet of two aliens and a bullet on the left one: the
    left alien is destroyed for 50 points and the right one is left. *)
Lemma fleet_collisions_resolved_witness :
  AlienFleet.check_collisions two_alien_fleet [short_bullet]
    = ([(alien_left, [short_bullet])], AlienFleet.mk [alien_right] 1 40, []) /\
  GameStats.score
    (GameStats.update Settings.new [(alien_left, [short_bullet])]
       (GameStats.mk 0 0 3 0 1)) = 50.
Proof.
  pose proof (fleet_collisions_resolved Settings.new two_alien_fleet
                [short_bullet] (GameStats.mk 0 0 3 0 1)) as H.
  assert (E : AlienFleet.check_collisions two_alien_fleet [short_bullet]
              = ([(alien_left, [short_bullet])],
                 AlienFleet.mk [alien_right] 1 40, []))
    by (vm_compute; reflexivity).
  rewrite E in H. split; [exact E|].
  destruct H as (_ & _ & _ & _ & _ & _ & Hscore).
  rewrite Hscore. reflexivity.
Defined.

(** C4 as stated fails: the bullet overlaps both aliens of the fleet; the
    left alien, first in the group, takes it, and the right alien, which
    overlapped it in the input state, is left in the fleet. *)
Lemma overlapped_alien_left_in_fleet :
  AlienFleet.collided alien_left long_bullet = true /\
  AlienFleet.collided alien_right long_bullet = true /\
  AlienFleet.check_collisions two_alien_fleet [long_bullet]
    = ([(alien_left, [long_bullet])], AlienFleet.mk [alien_right] 1 40, []) /\
  ~ (forall a b,
       In a (AlienFleet.fleet two_alien_fleet) -> In b [long_bullet] ->
       AlienFleet.collided a b = true ->
       ~ In a (AlienFleet.fleet
                 (snd (fst (AlienFleet.check_collisions two_alien_fleet
                              [long_bullet]))))).
Proof.
  split; [reflexivity|]. split; [reflexivity|].
  assert (E : AlienFleet.check_collisions two_alien_fleet [long_bullet]
              = ([(alien_left, [long_bullet])],
                 AlienFleet.mk [alien_right] 1 40, []))
    by (vm_compute; reflexivity).
  split; [exact E|]. rewrite E. cbn [fst snd AlienFleet.fleet].
  intros H.
  apply (H alien_right long_bullet).
  - right; left; reflexivity.
  - left; reflexivity.
  - reflexivity.
  - left; reflexivity.
Qed.

(** ** The cap on the projectiles *)

Lemma midleft_set_midleft (r : Rect.t) (p : Z * Z) :
  Rect.midleft (Rect.set_midleft r p) = p.
Proof.
  destruct p as [px py]. unfold Rect.midleft, Rect.set_midleft.
  cbn [Rect.x Rect.y Rect.h fst snd]. f_equal. ring.
Qed.

Lemma bullet_at_midleft (st : Settings.t) (ship_rect : Rect.t) :
  Rect.midleft (Bullet.rect (Bullet.__init__ st ship_rect))
  = Rect.midleft ship_rect.
Proof.
  unfold Bullet.__init__. cbn [Bullet.rect]. apply midleft_set_midleft.
Qed.

Lemma fire_bullet_below (st : Settings.t) (ship_rect : Rect.t) (a : Arsenal.t) :
  Z.of_nat (length a) < Settings.bullet_amount st ->
  Arsenal.fire_bullet st ship_rect a
  = (true, a ++ [Bullet.__init__ st ship_rect]).
Proof.
  intros H. unfold Arsenal.fire_bullet.
  destruct (Z.ltb_spec (Z.of_nat (length a)) (Settings.bullet_amount st));
    [reflexivity | lia].
Qed.

Lemma fire_bullet_at_cap (st : Settings.t) (ship_rect : Rect.t) (a : Arsenal.t) :
  ~ Z.of_nat (length a) < Settings.bullet_amount st ->
  Arsenal.fire_bullet st ship_rect a = (false, a).
Proof.
  intros H. unfold Arsenal.fire_bullet.
  destruct (Z.ltb_spec (Z.of_nat (length a)) (Settings.bullet_amount st));
    [contradiction | reflexivity].
Qed.

(** While there is room every call succeeds and appends one bullet. *)
Lemma fire_times_below (st : Settings.t) (ship_rect : Rect.t) (n : nat) :
  forall a,
    Z.of_nat (length a) + Z.of_nat n <= Settings.bullet_amount st ->
    fire_times st ship_rect n a
    = (repeat true n, a ++ repeat (Bullet.__init__ st ship_rect) n).
Proof.
  induction n as [|n IH]; intros a H; cbn [fire_times repeat].
  - now rewrite app_nil_r.
  - rewrite fire_bullet_below by lia.
    rewrite IH by (rewrite length_app; cbn [length]; lia).
    now rewrite <- app_assoc.
Qed.

(** At the cap every call fails and leaves the group. *)
Lemma fire_times_at_cap (st : Settings.t) (ship_rect : Rect.t) (n : nat) :
  forall a,
    ~ Z.of_nat (length a) < Settings.bullet_amount st ->
    fire_times st ship_rect n a = (repeat false n, a).
Proof.
  induction n as [|n IH]; intros a H; cbn [fire_times repeat].
  - reflexivity.
  - rewrite fire_bullet_at_cap by exact H. now rewrite IH.
Qed.

Lemma fire_times_app (st : Settings.t) (ship_rect : Rect.t) (n m : nat) :
  forall a,
    fire_times st ship_rect (n + m) a
    = (fst (fire_times st ship_rect n a)
         ++ fst (fire_times st ship_rect m (snd (fire_times st ship_rect n a))),
       snd (fire_times st ship_rect m (snd (fire_times st ship_rect n a)))).
Proof.
  induction n as [|n IH]; intros a; cbn [fire_times Nat.add].
  - cbn. now destruct (fire_times st ship_rect m a).
  - destruct (Arsenal.fire_bullet st ship_rect a) as [fired a1].
    rewrite IH.
    destruct (fire_times st ship_rect n a1) as [flags a2]. reflexivity.
Qed.

(** The size of the group never passes the cap, however often the ship
    fires. *)
Lemma fire_times_bounded (st : Settings.t) (ship_rect : Rect.t) (n : nat) :
  forall a,
    Z.of_nat (length a) <= Settings.bullet_amount st ->
    Z.of_nat (length (snd (fire_times st ship_rect n a)))
      <= Settings.bullet_amount st.
Proof.
  induction n as [|n IH]; intros a H; cbn [fire_times].
  - exact H.
  - destruct (Z_lt_dec (Z.of_nat (length a)) (Settings.bullet_amount st)) as [Hlt|Hge].
    + rewrite fire_bullet_below by exact Hlt.
      specialize (IH (a ++ [Bullet.__init__ st ship_rect])).
      destruct (fire_times st ship_rect n _) as [flags a2]. apply IH.
      rewrite length_app. cbn [length]. lia.
    + rewrite fire_bullet_at_cap by exact Hge.
      specialize (IH a H).
      destruct (fire_times st ship_rect n a) as [flags a2]. exact IH.
Qed.

(** The steps of the game keep the arsenal within the cap. *)

Lemma update_arsenal_length (st : Settings.t) (a : Arsenal.t) :
  (length (Arsenal.update_arsenal st a) <= length a)%nat.
Proof.
  unfold Arsenal.update_arsenal, Arsenal._remove_bullets_offscreen.
  rewrite <- (length_map (Bullet.update st) a). apply filter_length_le.
Qed.

Lemma reset_level_within_cap (g g' : AlienInvasion.t) :
  AlienInvasion._reset_level g = Ok g' ->
  0 <= Settings.bullet_amount (AlienInvasion.settings g) ->
  within_cap g' /\
  AlienInvasion.settings g' = AlienInvasion.settings g.
Proof.
  unfold AlienInvasion._reset_level, within_cap.
  destruct (AlienFleet.create_fleet _ _) as [laid_out|e];
    cbn [bind]; [|discriminate].
  intros E Hcap. injection E as <-. cbn. split; [exact Hcap | reflexivity].
Qed.

Lemma check_game_status_within_cap (g g' : AlienInvasion.t) :
  AlienInvasion._check_game_status g = Ok g' ->
  within_cap g ->
  within_cap g' /\
  AlienInvasion.settings g' = AlienInvasion.settings g.
Proof.
  unfold AlienInvasion._check_game_status.
  destruct (GameStats.ships_left (AlienInvasion.game_stats g) >? 0);
    intros E Hcap.
  - apply reset_level_within_cap in E; [exact E|].
    unfold within_cap in Hcap. cbn. lia.
  - injection E as <-. split; [exact Hcap | reflexivity].
Qed.

Lemma check_collisions_within_cap (g g' : AlienInvasion.t) :
  AlienInvasion._check_collisions g = Ok g' ->
  within_cap g -> within_cap g'.
Proof.
  unfold AlienInvasion._check_collisions.
  intros E Hcap.
  assert (Hship : forall b s,
            Ship.check_collisions Alien.rect (AlienInvasion.settings g)
              (AlienFleet.fleet (AlienInvasion.alien_fleet g))
              (AlienInvasion.ship g) = (b, s) ->
            Ship.arsenal s = Ship.arsenal (AlienInvasion.ship g)).
  { intros b s. unfold Ship.check_collisions.
    destruct (Sprite.spritecollideany _ _ _); intros E0; injection E0 as <- <-;
      reflexivity. }
  destruct (Ship.check_collisions _ _ _ _) as [hit the_ship].
  specialize (Hship hit the_ship eq_refl).
  set (g0 := AlienInvasion.set_ship g the_ship) in E.
  assert (H0 : within_cap g0) by (unfold within_cap in *; cbn; now rewrite Hship).
  clearbody g0. clear Hcap Hship g the_ship.
  assert (H1 : forall g1,
            (if hit then AlienInvasion._check_game_status g0 else Ok g0) = Ok g1 ->
            within_cap g1).
  { intros g1. destruct hit; intros E1.
    - now apply (check_game_status_within_cap g0 g1).
    - now injection E1 as <-. }
  destruct (if hit then AlienInvasion._check_game_status g0 else Ok g0)
    as [g1|e]; cbn [bind] in E; [|discriminate].
  specialize (H1 g1 eq_refl). clear H0 g0 hit.
  assert (H2 : forall g2,
            (if AlienFleet.check_fleet_left (AlienInvasion.alien_fleet g1)
             then AlienInvasion._check_game_status g1 else Ok g1) = Ok g2 ->
            within_cap g2).
  { intros g2.
    destruct (AlienFleet.check_fleet_left (AlienInvasion.alien_fleet g1));
      intros E2.
    - now apply (check_game_status_within_cap g1 g2).
    - now injection E2 as <-. }
  destruct (if AlienFleet.check_fleet_left (AlienInvasion.alien_fleet g1)
            then AlienInvasion._check_game_status g1 else Ok g1)
    as [g2|e]; cbn [bind] in E; [|discriminate].
  specialize (H2 g2 eq_refl). clear H1 g1.
  pose proof (groupcollide_groupb AlienFleet.collided
                (AlienFleet.fleet (AlienInvasion.alien_fleet g2))
                (Ship.arsenal (AlienInvasion.ship g2))) as Hb.
  unfold AlienFleet.check_collisions in E.
  destruct (Sprite.groupcollide _ _ _) as [[collisions fleet'] the_arsenal].
  cbn [snd] in Hb.
  assert (Hlen : (length the_arsenal
                  <= length (Ship.arsenal (AlienInvasion.ship g2)))%nat)
    by (rewrite Hb; apply filter_length_le).
  set (g3 := match collisions with [] => _ | _ :: _ => _ end) in E.
  assert (H3 : within_cap g3).
  { unfold within_cap in *. unfold g3. destruct collisions; cbn; lia. }
  clearbody g3.
  destruct (AlienFleet.check_destroyed_status (AlienInvasion.alien_fleet g3)).
  - destruct (AlienInvasion._reset_level g3) as [g4|e] eqn:E4;
      cbn [bind] in E; [|discriminate].
    injection E as <-.
    apply reset_level_within_cap in E4; [|unfold within_cap in H3; lia].
    destruct E4 as [H4 _]. unfold within_cap in *. cbn. exact H4.
  - injection E as <-. exact H3.
Qed.

(** C5.  [fire_bullet] succeeds exactly when the group holds fewer bullets
    than the cap; it then appends one bullet, whose mid-left point is the
    ship's, and returns [True]; otherwise it returns [False] and leaves the
    group.  The size never passes the cap: not by firing, however often,
    and not in a frame or a restart of the game.  With a cap of 50 the first
    50 of 51 calls on an empty group succeed, the 51st fails, and the group
    holds 50 bullets. *)
Theorem fire_bullet_cap (st : Settings.t) (ship_rect : Rect.t) (a : Arsenal.t) :
  (fst (Arsenal.fire_bullet st ship_rect a) = true
   <-> Z.of_nat (length a) < Settings.bullet_amount st) /\
  (Z.of_nat (length a) < Settings.bullet_amount st ->
   exists b,
     Arsenal.fire_bullet st ship_rect a = (true, a ++ [b]) /\
     Rect.midleft (Bullet.rect b) = Rect.midleft ship_rect) /\
  (~ Z.of_nat (length a) < Settings.bullet_amount st ->
   Arsenal.fire_bullet st ship_rect a = (false, a)) /\
  (forall s, Ship.fire st s
             = (fst (Arsenal.fire_bullet st (Ship.rect s) (Ship.arsenal s)),
                Ship.set_arsenal s
                  (snd (Arsenal.fire_bullet st (Ship.rect s) (Ship.arsenal s))))) /\
  (forall n,
     Z.of_nat (length a) <= Settings.bullet_amount st ->
     Z.of_nat (length (snd (fire_times st ship_rect n a)))
       <= Settings.bullet_amount st) /\
  (Settings.bullet_amount st = 50 ->
   fst (fire_times st ship_rect 51 []) = repeat true 50 ++ [false] /\
   length (snd (fire_times st ship_rect 50 [])) = 50%nat /\
   snd (fire_times st ship_rect 51 []) = snd (fire_times st ship_rect 50 [])) /\
  (forall g g',
     AlienInvasion.frame g = Ok g' \/ AlienInvasion.restart_game g = Ok g' \/
     fire_key g = g' ->
     within_cap g -> within_cap g').
Proof.
  split; [|split; [|split; [|split; [|split; [|split]]]]].
  - destruct (Z_lt_dec (Z.of_nat (length a)) (Settings.bullet_amount st)) as [Hlt|Hge].
    + rewrite fire_bullet_below by exact Hlt. cbn. tauto.
    + rewrite fire_bullet_at_cap by exact Hge. cbn. split; [discriminate|tauto].
  - intros Hlt. exists (Bullet.__init__ st ship_rect).
    split; [now apply fire_bullet_below | apply bullet_at_midleft].
  - apply fire_bullet_at_cap.
  - intros s. unfold Ship.fire.
    now destruct (Arsenal.fire_bullet st (Ship.rect s) (Ship.arsenal s)).
  - intros n. apply fire_times_bounded.
  - intros Hcap.
    assert (H50 : fire_times st ship_rect 50 []
                  = (repeat true 50, repeat (Bullet.__init__ st ship_rect) 50)).
    { rewrite fire_times_below by (cbn [length]; lia). reflexivity. }
    change 51%nat with (50 + 1)%nat. rewrite fire_times_app, H50.
    cbn [fst snd].
    rewrite fire_times_at_cap by (rewrite repeat_length; lia).
    cbn [fst snd]. split; [reflexivity|].
    split; [apply repeat_length | reflexivity].
  - intros g g' [E|[E|E]] Hcap.
    + unfold AlienInvasion.frame in E.
      destruct (AlienInvasion.game_active g); [|now injection E as <-].
      apply check_collisions_within_cap in E; [exact E|].
      unfold within_cap in *.
      cbn [AlienInvasion.set_alien_fleet AlienInvasion.set_ship
           AlienInvasion.ship AlienInvasion.settings].
      unfold Ship.update, Ship._update_ship_movement.
      cbn [Ship.set_arsenal Ship.arsenal].
      pose proof (update_arsenal_length (AlienInvasion.settings g)
                    (Ship.arsenal (AlienInvasion.ship g))). lia.
    + unfold AlienInvasion.restart_game in E.
      destruct (AlienInvasion._reset_level _) as [g1|e] eqn:E1;
        cbn [bind] in E; [|discriminate].
      injection E as <-.
      apply reset_level_within_cap in E1; [|cbn; lia].
      destruct E1 as [H1 _]. unfold within_cap in *. cbn in *. exact H1.
    + subst g'. unfold fire_key, within_cap in *. cbn [AlienInvasion.set_ship
        AlienInvasion.ship AlienInvasion.settings].
      unfold Ship.fire.
      pose proof (fire_times_bounded (AlienInvasion.settings g)
                    (Ship.rect (AlienInvasion.ship g)) 1
                    (Ship.arsenal (AlienInvasion.ship g)) Hcap) as H.
      cbn [fire_times] in H.
      destruct (Arsenal.fire_bullet _ _ _) as [fired a1]. cbn in H |- *.
      exact H.
Qed.

(** The theorem at the base settings, whose cap is 50, and the centred
    ship. *)
Lemma fire_bullet_cap_witness :
  fst (fire_times Settings.new (Ship.rect (Ship.__init__ Settings.new [])) 51 [])
    = repeat true 50 ++ [false] /\
  length
    (snd (fire_times Settings.new (Ship.rect (Ship.__init__ Settings.new [])) 51 []))
    = 50%nat.
Proof.
  destruct (fire_bullet_cap Settings.new
              (Ship.rect (Ship.__init__ Settings.new [])) [])
    as (_ & _ & _ & _ & _ & H & _).
  destruct (H eq_refl) as (Hflags & Hlen & Hsame).
  split; [exact Hflags|]. rewrite Hsame. exact Hlen.
Defined.

(** ** The size of the fleet *)

Lemma decrement_odd (q : Z) :
  Z.odd (if q mod 2 =? 0 then q - 1 else q - 2) = true.
Proof.
  destruct (Z.eqb_spec (q mod 2) 0) as [E|E].
  - rewrite Z.odd_sub. cbn. rewrite <- Z.negb_even.
    pose proof (Zmod_even q) as H. destruct (Z.even q); [reflexivity|lia].
  - rewrite Z.odd_sub. cbn.
    pose proof (Zmod_odd q) as H. destruct (Z.odd q); [reflexivity|lia].
Qed.

(** For a positive alien width the raw column quotient is the integer
    quotient of the screen width by twice the alien width. *)
Lemma raw_columns_div (alien_w screen_w : Z) :
  0 < alien_w -> raw_columns alien_w screen_w = screen_w / (2 * alien_w).
Proof.
  intros H. unfold raw_columns.
  destruct alien_w as [|p|p]; try lia.
  unfold Qdiv, Qinv, Qmult, inject_Z, Qfloor. cbn [Qnum Qden].
  f_equal; lia.
Qed.



(** ** The layout of the fleet *)

Lemma range_In (n z : Z) : In z (range n) <-> 0 <= z < n.
Proof.
  unfold range. rewrite in_map_iff. split.
  - intros (k & <- & Hk). apply in_seq in Hk. lia.
  - intros H. exists (Z.to_nat z). split; [lia|]. apply in_seq. lia.
Qed.

Lemma range_NoDup (n : Z) : NoDup (range n).
Proof.
  unfold range. apply NoDup_map_NoDup_ForallPairs.
  - intros x y _ _ E. lia.
  - apply seq_NoDup.
Qed.

Lemma list_prod_NoDup {X Y : Type} (l : list X) (l' : list Y) :
  NoDup l -> NoDup l' -> NoDup (list_prod l l').
Proof.
  intros Hl Hl'. induction Hl as [|x l Hx Hl IH]; cbn [list_prod].
  - constructor.
  - apply NoDup_app.
    + apply NoDup_map_NoDup_ForallPairs; [|exact Hl'].
      intros a b _ _ E. now injection E.
    + exact IH.
    + intros [a b] Hin Hin'. apply in_map_iff in Hin.
      destruct Hin as (y & E & _). injection E as <- <-.
      apply in_prod_iff in Hin'. tauto.
Qed.

Section Layout.

Variable st : Settings.t.
Variables alien_w alien_h x_offset y_offset : Z.

Local Abbreviation cell_aliens :=
  (aliens_of_cell st alien_w alien_h x_offset y_offset).

Lemma rows_loop (col : Z) (rows : list Z) :
  forall group,
    fold_left
      (fun group row =>
         let current_y := alien_h * row + y_offset in
         let current_x := alien_w * col + x_offset in
         if (row mod 2 =? 0) || (col mod 2 =? 0) then group
         else AlienFleet._create_alien st current_y current_x group)
      rows group
    = group ++ flat_map (cell_aliens col) rows.
Proof.
  induction rows as [|row rows IH]; intros group; cbn [fold_left flat_map].
  - now rewrite app_nil_r.
  - rewrite IH. unfold aliens_of_cell at 2, AlienFleet._create_alien.
    destruct ((row mod 2 =? 0) || (col mod 2 =? 0)); cbn [app].
    + reflexivity.
    + now rewrite <- app_assoc.
Qed.

Lemma columns_loop (rows cols : list Z) :
  forall group,
    fold_left
      (fun group col =>
         fold_left
           (fun group row =>
              let current_y := alien_h * row + y_offset in
              let current_x := alien_w * col + x_offset in
              if (row mod 2 =? 0) || (col mod 2 =? 0) then group
              else AlienFleet._create_alien st current_y current_x group)
           rows group)
      cols group
    = group ++ flat_map (fun col => flat_map (cell_aliens col) rows) cols.
Proof.
  induction cols as [|col cols IH]; intros group; cbn [fold_left flat_map].
  - now rewrite app_nil_r.
  - rewrite rows_loop, IH. now rewrite <- app_assoc.
Qed.

Lemma cell_aliens_row (col : Z) (rows : list Z) :
  flat_map (cell_aliens col) rows
  = map (fun cell =>
           Alien.__init__ st (x_offset + fst cell * alien_w)
             (y_offset + snd cell * alien_h))
      (filter
         (fun cell => negb ((snd cell mod 2 =? 0) || (fst cell mod 2 =? 0)))
         (map (fun row => (col, row)) rows)).
Proof.
  induction rows as [|row rows IH]; cbn [flat_map map filter fst snd].
  - reflexivity.
  - rewrite IH. unfold aliens_of_cell at 1.
    destruct ((row mod 2 =? 0) || (col mod 2 =? 0)); cbn [negb app map].
    + reflexivity.
    + cbn [fst snd]. do 2 f_equal; ring.
Qed.

Lemma cell_aliens_grid (rows cols : list Z) :
  flat_map (fun col => flat_map (cell_aliens col) rows) cols
  = map (fun cell =>
           Alien.__init__ st (x_offset + fst cell * alien_w)
             (y_offset + snd cell * alien_h))
      (filter
         (fun cell => negb ((snd cell mod 2 =? 0) || (fst cell mod 2 =? 0)))
         (list_prod cols rows)).
Proof.
  induction cols as [|col cols IH]; cbn [flat_map list_prod].
  - reflexivity.
  - rewrite filter_app, map_app, <- IH, cell_aliens_row. reflexivity.
Qed.

(** The fleet laid out is the group before with one alien per populated
    cell appended, in the order of the loops. *)
Lemma create_rectangle_fleet_cells (fleet_w fleet_h : Z) (group : list Alien.t) :
  AlienFleet._create_rectangle_fleet st fleet_w fleet_h alien_w alien_h
    x_offset y_offset group
  = group ++
    map (fun cell =>
           Alien.__init__ st (x_offset + fst cell * alien_w)
             (y_offset + snd cell * alien_h))
      (populated_cells fleet_w fleet_h).
Proof.
  unfold AlienFleet._create_rectangle_fleet, populated_cells.
  now rewrite columns_loop, cell_aliens_grid.
Qed.

End Layout.

Lemma populated_cells_In (fleet_w fleet_h col row : Z) :
  In (col, row) (populated_cells fleet_w fleet_h) <->
  (0 <= col < fleet_w /\ 0 <= row < fleet_h) /\
  Z.odd row = true /\ Z.odd col = true.
Proof.
  unfold populated_cells. rewrite filter_In, in_prod_iff, !range_In.
  cbn [fst snd]. rewrite negb_true_iff, orb_false_iff, !Z.eqb_neq.
  pose proof (Zmod_odd row) as Hr. pose proof (Zmod_odd col) as Hc.
  destruct (Z.odd row), (Z.odd col); intuition (try lia; try discriminate).
Qed.

Lemma populated_cells_NoDup (fleet_w fleet_h : Z) :
  NoDup (populated_cells fleet_w fleet_h).
Proof.
  apply NoDup_filter, list_prod_NoDup; apply range_NoDup.
Qed.

(** C7.  The layout creates one alien for each cell of the grid whose row
    and column index are both odd and none for any other cell: the fleet is
    the image of the duplicate-free list of those cells, and the alien of
    the cell (row, col) has its rectangle at [x_offset + col * alien_w],
    [y_offset + row * alien_h], where its float position is too. *)
Theorem layout_populates_odd_cells (st : Settings.t)
  (fleet_w fleet_h alien_w alien_h x_offset y_offset : Z) :
  AlienFleet._create_rectangle_fleet st fleet_w fleet_h alien_w alien_h
    x_offset y_offset []
  = map (fun cell =>
           Alien.__init__ st (x_offset + fst cell * alien_w)
             (y_offset + snd cell * alien_h))
      (populated_cells fleet_w fleet_h) /\
  NoDup (populated_cells fleet_w fleet_h) /\
  (forall col row,
     0 <= col < fleet_w -> 0 <= row < fleet_h ->
     count_occ cell_eq_dec
       (populated_cells fleet_w fleet_h) (col, row)
     = if Z.odd row && Z.odd col then 1%nat else 0%nat) /\
  (forall col row,
     In (col, row) (populated_cells fleet_w fleet_h) ->
     0 <= col < fleet_w /\ 0 <= row < fleet_h) /\
  (forall col row,
     let alien :=
       Alien.__init__ st (x_offset + col * alien_w) (y_offset + row * alien_h) in
     Rect.x (Alien.rect alien) = x_offset + col * alien_w /\
     Rect.y (Alien.rect alien) = y_offset + row * alien_h /\
     Alien.x alien = inject_Z (x_offset + col * alien_w) /\
     Alien.y alien = inject_Z (y_offset + row * alien_h)).
Proof.
  split; [apply (create_rectangle_fleet_cells st _ _ _ _ _ _ [])|].
  split; [apply populated_cells_NoDup|].
  split; [|split].
  - intros col row Hc Hr.
    pose proof (populated_cells_NoDup fleet_w fleet_h) as Hnd.
    rewrite (NoDup_count_occ cell_eq_dec) in Hnd.
    specialize (Hnd (col, row)).
    pose proof (populated_cells_In fleet_w fleet_h col row) as Hin.
    rewrite (count_occ_In cell_eq_dec) in Hin.
    destruct (Z.odd row), (Z.odd col); cbn [andb].
    + assert (count_occ cell_eq_dec
                (populated_cells fleet_w fleet_h) (col, row) > 0)%nat
        by (apply Hin; tauto). lia.
    + apply Nat.le_0_r, Nat.nlt_ge. intros H. apply Hin in H.
      destruct H as (_ & _ & H). discriminate.
    + apply Nat.le_0_r, Nat.nlt_ge. intros H. apply Hin in H.
      destruct H as (_ & H & _). discriminate.
    + apply Nat.le_0_r, Nat.nlt_ge. intros H. apply Hin in H.
      destruct H as (_ & H & _). discriminate.
  - intros col row H. apply populated_cells_In in H. tauto.
  - intros col row. cbn. repeat split; reflexivity.
Qed.

(** The theorem at the grid of 13 columns and 19 rows: the cell (3, 5) holds
    one alien, the cell (3, 4) none, and the fleet has 54 aliens. *)
Lemma layout_populates_odd_cells_witness :
  count_occ cell_eq_dec (populated_cells 13 19) (3, 5)
    = 1%nat /\
  count_occ cell_eq_dec (populated_cells 13 19) (3, 4)
    = 0%nat /\
  length
    (AlienFleet._create_rectangle_fleet Settings.new 13 19 40 40 640 20 [])
  = 54%nat.
Proof.
  destruct (layout_populates_odd_cells Settings.new 13 19 40 40 640 20)
    as (Hfleet & _ & Hcount & _).
  split; [apply (Hcount 3 5); lia|].
  split; [apply (Hcount 3 4); lia|].
  rewrite Hfleet, length_map. reflexivity.
Defined.

(** ** The advance of the fleet *)


Lemma check_edges_touch (st : Settings.t) (a : Alien.t) :
  Alien.check_edges st a = true <->
  Settings.screen_h st <= Rect.bottom (Alien.rect a) \/
  Rect.top (Alien.rect a) <= 0.
Proof.
  unfold Alien.check_edges, Settings.boundaries, Rect.get_rect, Rect.bottom,
    Rect.top.
  cbn [Rect.y Rect.h]. rewrite orb_true_iff. lia.
Qed.


(** The direction of the fleet through the steps of the controller. *)









(** ** Score, session maximum and high score *)

Lemma update_max_score_cases (s : GameStats.t) :
  GameStats.score (GameStats._update_max_score s) = GameStats.score s /\
  GameStats.hi_score (GameStats._update_max_score s) = GameStats.hi_score s /\
  GameStats.max_score (GameStats._update_max_score s)
  = Z.max (GameStats.max_score s) (GameStats.score s).
Proof.
  unfold GameStats._update_max_score.
  destruct (Z.gtb_spec (GameStats.score s) (GameStats.max_score s));
    cbn; repeat split; lia.
Qed.

Lemma update_hi_score_cases (s : GameStats.t) :
  GameStats.score (GameStats._update_hi_score s) = GameStats.score s /\
  GameStats.max_score (GameStats._update_hi_score s) = GameStats.max_score s /\
  GameStats.hi_score (GameStats._update_hi_score s)
  = Z.max (GameStats.hi_score s) (GameStats.score s).
Proof.
  unfold GameStats._update_hi_score.
  destruct (Z.gtb_spec (GameStats.score s) (GameStats.hi_score s));
    cbn; repeat split; lia.
Qed.

Lemma update_score_frame {K V : Type} (st : Settings.t)
  (collisions : list (K * V)) (s : GameStats.t) :
  GameStats.max_score (GameStats._update_score st collisions s)
    = GameStats.max_score s /\
  GameStats.hi_score (GameStats._update_score st collisions s)
    = GameStats.hi_score s.
Proof.
  unfold GameStats._update_score.
  revert s. induction (map snd collisions) as [|v l IH]; intros s.
  - split; reflexivity.
  - cbn [fold_left]. destruct (IH (GameStats.mk (GameStats.max_score s)
      (GameStats.hi_score s) (GameStats.ships_left s)
      (GameStats.score s + Settings.alien_points st) (GameStats.level s)))
      as [Hm Hh].
    rewrite Hm, Hh. split; reflexivity.
Qed.

(** What [update] makes of the three scores. *)
Lemma update_scores {K V : Type} (st : Settings.t)
  (collisions : list (K * V)) (s : GameStats.t) :
  GameStats.score (GameStats.update st collisions s)
    = GameStats.score s
      + Settings.alien_points st * Z.of_nat (length collisions) /\
  GameStats.max_score (GameStats.update st collisions s)
    = Z.max (GameStats.max_score s) (GameStats.score (GameStats.update st collisions s)) /\
  GameStats.hi_score (GameStats.update st collisions s)
    = Z.max (GameStats.hi_score s) (GameStats.score (GameStats.update st collisions s)).
Proof.
  unfold GameStats.update.
  set (s1 := GameStats._update_score st collisions s).
  destruct (update_score_frame st collisions s) as [Hm Hh]. fold s1 in Hm, Hh.
  pose proof (update_score_length st collisions s) as Hs. fold s1 in Hs.
  destruct (update_max_score_cases s1) as (M1 & M2 & M3).
  destruct (update_hi_score_cases (GameStats._update_max_score s1))
    as (H1 & H2 & H3).
  rewrite H1, H2, H3, M1, M2, M3, Hm, Hh, Hs. repeat split; reflexivity.
Qed.

(** The high score loaded at start-up from a disk with a sound record is not
    negative. *)
Lemma init_saved_scores_nonneg (d d' : disk) (hi : Z) :
  stored_score_ok d ->
  GameStats.init_saved_scores d = Ok (hi, d') -> 0 <= hi.
Proof.
  unfold stored_score_ok, GameStats.init_saved_scores, GameStats.path_exists,
    GameStats.read_and_loads.
  destruct (file d) as [|[| |[v|]]]; cbn.
  - destruct (GameStats.save_scores 0 d); cbn; [|discriminate].
    intros _ E. injection E as <- _. lia.
  - destruct (read_error d); discriminate.
  - destruct (read_error d); discriminate.
  - destruct (read_error d); cbn; [discriminate|].
    intros Hv E. injection E as <- _. exact Hv.
  - destruct (read_error d); cbn; [discriminate|].
    intros _ E. injection E as <- _. lia.
Qed.

(** The invariant of a session: the session maximum never passes the high
    score. *)
Lemma reachable_max_le_hi (s : GameStats.t) :
  stats_reachable s -> GameStats.max_score s <= GameStats.hi_score s.
Proof.
  induction 1 as [st d d' s Hd E | st collisions s _ IH | s _ IH | s _ IH
                 | st s _ IH].
  - unfold GameStats.__init__ in E.
    destruct (GameStats.init_saved_scores d) as [[hi d1]|e] eqn:Ei;
      cbn [bind] in E; [|discriminate].
    injection E as <- _. cbn.
    now apply (init_saved_scores_nonneg d d1).
  - destruct (update_scores st collisions s) as (_ & Hm & Hh).
    rewrite Hm, Hh. lia.
  - exact IH.
  - exact IH.
  - exact IH.
Qed.

Lemma reset_level_stats (g g' : AlienInvasion.t) :
  AlienInvasion._reset_level g = Ok g' ->
  AlienInvasion.game_stats g' = AlienInvasion.game_stats g /\
  AlienInvasion.settings g' = AlienInvasion.settings g.
Proof.
  unfold AlienInvasion._reset_level.
  destruct (AlienFleet.create_fleet _ _) as [laid_out|e];
    cbn [bind]; [|discriminate].
  intros E. injection E as <-. split; reflexivity.
Qed.

(** The statistics after a restart are those [reset_stats] makes with the
    base settings. *)
Lemma restart_game_stats (g g' : AlienInvasion.t) :
  AlienInvasion.restart_game g = Ok g' ->
  AlienInvasion.game_stats g'
  = GameStats.reset_stats
      (Settings.initialize_dynamic_settings (AlienInvasion.settings g))
      (AlienInvasion.game_stats g).
Proof.
  unfold AlienInvasion.restart_game.
  destruct (AlienInvasion._reset_level _) as [g1|e] eqn:E1;
    cbn [bind]; [|discriminate].
  intros E. injection E as <-. apply reset_level_stats in E1.
  destruct E1 as [E1 _]. cbn in E1 |- *. rewrite E1. reflexivity.
Qed.

(** C9.  In a session, after every call of [GameStats.update] the score is
    at most the session maximum, which is at most the high score; the call
    raises the maximum and the high score to the score when the score
    passes them and never lowers them; and a restart leaves the high score
    as it is. *)
Theorem score_order_after_update (s : GameStats.t) (st : Settings.t)
  (collisions : list (Alien.t * list Bullet.t)) :
  stats_reachable s ->
  GameStats.score (GameStats.update st collisions s)
    <= GameStats.max_score (GameStats.update st collisions s)
    <= GameStats.hi_score (GameStats.update st collisions s) /\
  GameStats.max_score (GameStats.update st collisions s)
    = Z.max (GameStats.max_score s)
        (GameStats.score (GameStats.update st collisions s)) /\
  GameStats.hi_score (GameStats.update st collisions s)
    = Z.max (GameStats.hi_score s)
        (GameStats.score (GameStats.update st collisions s)) /\
  (forall st', GameStats.hi_score (GameStats.reset_stats st' s)
               = GameStats.hi_score s) /\
  (forall g g',
     AlienInvasion.restart_game g = Ok g' ->
     GameStats.hi_score (AlienInvasion.game_stats g')
     = GameStats.hi_score (AlienInvasion.game_stats g)).
Proof.
  intros Hr. pose proof (reachable_max_le_hi s Hr) as Hinv.
  destruct (update_scores st collisions s) as (_ & Hm & Hh).
  split; [rewrite Hm, Hh; lia|].
  split; [exact Hm|]. split; [exact Hh|].
  split; [reflexivity|].
  intros g g' E. rewrite (restart_game_stats g g' E). reflexivity.
Qed.

(** The theorem at the statistics made at start-up on a fresh disk, after
    one alien was destroyed. *)
Lemma score_order_after_update_witness :
  exists s d,
    GameStats.__init__ Settings.new fresh_disk = Ok (s, d) /\
    GameStats.score (GameStats.update Settings.new [(alien_left, [short_bullet])] s)
      <= GameStats.max_score
           (GameStats.update Settings.new [(alien_left, [short_bullet])] s)
      <= GameStats.hi_score
           (GameStats.update Settings.new [(alien_left, [short_bullet])] s).
Proof.
  exists (GameStats.mk 0 0 3 0 1),
    (mk_disk (Present (ScoresObject (Some 0))) None None []).
  split; [reflexivity|].
  apply score_order_after_update.
  apply (reach_init Settings.new fresh_disk
           (mk_disk (Present (ScoresObject (Some 0))) None None [])).
  - exact I.
  - reflexivity.
Defined.

(** ** What a restart keeps *)

(** C10.  [reset_stats] assigns the lives, the score and the level and
    nothing else: the session maximum and the high score are kept.  So does
    [restart_game], which returns whenever the aliens have a size. *)
Theorem reset_stats_keeps_scores (st : Settings.t) (s : GameStats.t) :
  GameStats.ships_left (GameStats.reset_stats st s)
    = Settings.starting_ship_count st /\
  GameStats.score (GameStats.reset_stats st s) = 0 /\
  GameStats.level (GameStats.reset_stats st s) = 1 /\
  GameStats.max_score (GameStats.reset_stats st s) = GameStats.max_score s /\
  GameStats.hi_score (GameStats.reset_stats st s) = GameStats.hi_score s /\
  (forall g,
     Settings.alien_h (AlienInvasion.settings g) <> 0 ->
     Settings.alien_w (AlienInvasion.settings g) <> 0 ->
     exists g',
       AlienInvasion.restart_game g = Ok g' /\
       GameStats.max_score (AlienInvasion.game_stats g')
         = GameStats.max_score (AlienInvasion.game_stats g) /\
       GameStats.hi_score (AlienInvasion.game_stats g')
         = GameStats.hi_score (AlienInvasion.game_stats g) /\
       GameStats.ships_left (AlienInvasion.game_stats g') = 3 /\
       GameStats.score (AlienInvasion.game_stats g') = 0 /\
       GameStats.level (AlienInvasion.game_stats g') = 1).
Proof.
  repeat (split; [reflexivity|]).
  intros g Hh Hw. unfold AlienInvasion.restart_game.
  set (g0 := AlienInvasion.set_game_stats _ _).
  destruct (reset_level_ok g0 Hh Hw) as (g1 & E & _ & Hstats & _).
  rewrite E. cbn [bind]. eexists. split; [reflexivity|].
  cbn [AlienInvasion.set_game_active AlienInvasion.set_ship
       AlienInvasion.game_stats].
  rewrite Hstats. cbn. repeat split; reflexivity.
Qed.

(** The theorem at the game started on a fresh disk and restarted. *)
Lemma reset_stats_keeps_scores_witness :
  exists g g',
    new_game = Ok g /\
    AlienInvasion.restart_game g = Ok g' /\
    GameStats.max_score (AlienInvasion.game_stats g')
      = GameStats.max_score (AlienInvasion.game_stats g) /\
    GameStats.hi_score (AlienInvasion.game_stats g')
      = GameStats.hi_score (AlienInvasion.game_stats g).
Proof.
  let v := eval vm_compute in new_game in
  match v with Ok ?g => exists g end.
  match goal with |- exists g', new_game = Ok ?g /\ _ =>
    destruct (reset_stats_keeps_scores Settings.new (AlienInvasion.game_stats g))
      as (_ & _ & _ & _ & _ & H);
    destruct (H g) as (g' & E & Hmax & Hhi & _);
      [cbn; discriminate | cbn; discriminate |];
    exists g'
  end.
  split; [vm_compute; reflexivity|].
  split; [exact E|]. split; [exact Hmax | exact Hhi].
Defined.

(** ** Further properties of the frame step *)


(** The ship's collision check answers whether some sprite of the group
    overlaps the ship; on a hit the ship is put back to the middle of the
    left edge, otherwise it is left as it is. *)
Theorem ship_check_collisions_cases (st : Settings.t) (fleet : list Alien.t)
  (s : Ship.t) :
  (fst (Ship.check_collisions Alien.rect st fleet s) = true <->
   exists alien, In alien fleet /\
                 Rect.colliderect (Ship.rect s) (Alien.rect alien) = true) /\
  snd (Ship.check_collisions Alien.rect st fleet s)
  = (if fst (Ship.check_collisions Alien.rect st fleet s)
     then Ship._center_ship st s else s) /\
  Rect.midleft (Ship.rect (Ship._center_ship st s))
  = (0, Z.quot (Settings.screen_h st) 2).
Proof.
  unfold Ship.check_collisions, Sprite.spritecollideany.
  split; [|split].
  - destruct (find _ fleet) as [alien|] eqn:E; cbn [fst].
    + apply find_some in E. split; [|reflexivity].
      intros _. exists alien. exact E.
    + split; [discriminate|]. intros (alien & Hin & Hc).
      apply (find_none _ _ E) in Hin. congruence.
  - destruct (find _ fleet); reflexivity.
  - unfold Ship._center_ship. cbn [Ship.rect].
    rewrite midleft_set_midleft. reflexivity.
Qed.




(** ** Where a fresh fleet lies *)

Lemma check_collisions_phases (g : AlienInvasion.t) :
  AlienInvasion._check_collisions g
  = (g1 <- ship_phase g ;; g2 <- left_phase g1 ;; bullet_phase g2).
Proof.
  unfold AlienInvasion._check_collisions, ship_phase, left_phase, bullet_phase.
  destruct (Ship.check_collisions _ _ _ _) as [hit the_ship]. reflexivity.
Qed.

(** The counts and offsets of a layout, for aliens of positive size. *)
Lemma layout_numbers (alien_h screen_h alien_w screen_w fleet_h fleet_w : Z) :
  0 < alien_h -> 0 < alien_w ->
  AlienFleet.calculate_fleet_size alien_h screen_h alien_w screen_w
    = Ok (fleet_h, fleet_w) ->
  Z.odd fleet_h = true /\ Z.odd fleet_w = true /\
  (fleet_h + 1) * alien_h <= screen_h /\
  2 * ((fleet_w + 1) * alien_w) <= screen_w.
Proof.
  intros Hh Hw. unfold AlienFleet.calculate_fleet_size.
  destruct (Z.eqb_spec alien_h 0) as [|_]; [lia|].
  destruct (Z.eqb_spec alien_w 0) as [|_]; [lia|].
  fold (raw_columns alien_w screen_w). rewrite raw_columns_div by exact Hw.
  pose proof (Z.mul_div_le screen_h alien_h Hh) as H1.
  pose proof (Z.mul_div_le screen_w (2 * alien_w) ltac:(lia)) as H2.
  remember (screen_h / alien_h) as qh eqn:Eh.
  remember (screen_w / (2 * alien_w)) as qw eqn:Ew.
  clear Eh Ew. intros E. injection E as <- <-.
  split; [apply decrement_odd|]. split; [apply decrement_odd|].
  split.
  - destruct (qh mod 2 =? 0).
    + replace ((qh - 1 + 1) * alien_h) with (alien_h * qh) by ring.
      exact H1.
    + replace ((qh - 2 + 1) * alien_h) with (alien_h * qh - alien_h) by ring.
      lia.
  - destruct (qw mod 2 =? 0).
    + replace (2 * ((qw - 1 + 1) * alien_w)) with (2 * alien_w * qw) by ring.
      exact H2.
    + replace (2 * ((qw - 2 + 1) * alien_w))
        with (2 * alien_w * qw - 2 * alien_w) by ring.
      lia.
Qed.

Lemma odd_below_odd (n k : Z) :
  Z.odd n = true -> Z.odd k = true -> 0 <= k < n -> 1 <= k <= n - 2.
Proof.
  intros Hn Hk Hr.
  pose proof (Zmod_odd n) as H1. pose proof (Zmod_odd k) as H2.
  rewrite Hn in H1. rewrite Hk in H2.
  pose proof (Z.div_mod n 2). pose proof (Z.div_mod k 2). lia.
Qed.

(** The aliens of a fleet laid out on an empty group. *)
Lemma fresh_fleet_aliens_inside (st : Settings.t) (f f' : AlienFleet.t) :
  0 < Settings.alien_h st -> 0 < Settings.alien_w st ->
  AlienFleet.create_fleet st (AlienFleet.set_fleet f []) = Ok f' ->
  forall a, In a (AlienFleet.fleet f') -> alien_inside st a.
Proof.
  intros Hh Hw E.
  unfold AlienFleet.create_fleet in E.
  destruct (AlienFleet.calculate_fleet_size _ _ _ _)
    as [[fleet_h fleet_w]|e] eqn:Es; cbn [bind] in E; [|discriminate].
  destruct (layout_numbers _ _ _ _ _ _ Hh Hw Es) as (Oh & Ow & Bh & Bw).
  unfold AlienFleet.calculate_offsets in E.
  injection E as <-. cbn [AlienFleet.set_fleet AlienFleet.fleet].
  rewrite create_rectangle_fleet_cells. cbn [app].
  intros a Ha. apply in_map_iff in Ha.
  destruct Ha as ([col row] & <- & Hcell).
  apply populated_cells_In in Hcell.
  destruct Hcell as ((Hc & Hr) & Or & Oc). cbn [fst snd].
  destruct (odd_below_odd fleet_w col Ow Oc Hc) as [Hc1 Hc2].
  destruct (odd_below_odd fleet_h row Oh Or Hr) as [Hr1 Hr2].
  unfold alien_inside, Alien.__init__, Rect.left, Rect.right, Rect.top,
    Rect.bottom, Rect.set_x, Rect.set_y, Rect.get_rect.
  cbn [Alien.rect Rect.x Rect.y Rect.w Rect.h].
  set (aw := Settings.alien_w st) in *. set (ah := Settings.alien_h st) in *.
  set (sw := Settings.screen_w st) in *. set (sh := Settings.screen_h st) in *.
  pose proof (Z.div_mod sw 2 ltac:(lia)) as D1.
  pose proof (Z.mod_pos_bound sw 2 ltac:(lia)) as D1'.
  pose proof (Z.div_mod (sw / 2 - fleet_w * aw) 2 ltac:(lia)) as D2.
  pose proof (Z.mod_pos_bound (sw / 2 - fleet_w * aw) 2 ltac:(lia)) as D2'.
  pose proof (Z.div_mod (sh - fleet_h * ah) 2 ltac:(lia)) as D3.
  pose proof (Z.mod_pos_bound (sh - fleet_h * ah) 2 ltac:(lia)) as D3'.
  set (half := sw / 2) in *.
  set (mx := (half - fleet_w * aw) / 2) in *.
  set (my := (sh - fleet_h * ah) / 2) in *.
  assert (Pc1 : aw <= col * aw) by nia.
  assert (Pc2 : col * aw + aw <= (fleet_w - 1) * aw) by nia.
  assert (Pr1 : ah <= row * ah) by nia.
  assert (Pr2 : row * ah + ah <= (fleet_h - 1) * ah) by nia.
  repeat split; try reflexivity; nia.
Qed.

(** Aliens in the right half of the screen have not passed its left edge. *)
Lemma aliens_inside_not_left (st : Settings.t) (f' : AlienFleet.t) :
  0 < Settings.alien_w st ->
  (forall a, In a (AlienFleet.fleet f') -> alien_inside st a) ->
  AlienFleet.check_fleet_left f' = false.
Proof.
  intros Hw Hin.
  unfold AlienFleet.check_fleet_left. apply not_true_is_false. intros H.
  apply existsb_exists in H. destruct H as (a & Ha & Hc).
  destruct (Hin a Ha) as (Hw' & _ & Hl & Hr & _).
  unfold Rect.left, Rect.right in *.
  assert (0 <= Settings.screen_w st / 2).
  { apply Z.div_pos; [|lia].
    assert (Rect.x (Alien.rect a) < Settings.screen_w st) by lia.
    pose proof (Z.div_mod (Settings.screen_w st) 2 ltac:(lia)).
    pose proof (Z.mod_pos_bound (Settings.screen_w st) 2 ltac:(lia)). lia. }
  lia.
Qed.

(** A fleet laid out from an empty group lies in the right half of the
    screen, off its top and bottom edges: no alien of it is on an edge or
    past the left of the screen. *)
Theorem fresh_fleet_inside_screen (st : Settings.t) (f f' : AlienFleet.t) :
  0 < Settings.alien_h st -> 0 < Settings.alien_w st ->
  AlienFleet.create_fleet st (AlienFleet.set_fleet f []) = Ok f' ->
  (forall a, In a (AlienFleet.fleet f') -> alien_inside st a) /\
  on_edge st f' = false /\
  AlienFleet.check_fleet_left f' = false.
Proof.
  intros Hh Hw E.
  pose proof (fresh_fleet_aliens_inside st f f' Hh Hw E) as Hin.
  split; [exact Hin|]. split; [|exact (aliens_inside_not_left st f' Hw Hin)].
  unfold on_edge. apply not_true_is_false. intros H.
  apply existsb_exists in H. destruct H as (a & Ha & Hc).
  apply check_edges_touch in Hc.
  destruct (Hin a Ha) as (_ & _ & _ & _ & Ht & Hb). lia.
Qed.

(** The theorem at the base settings: the fleet a restart lays out. *)
Lemma fresh_fleet_inside_screen_witness :
  exists f',
    AlienFleet.create_fleet Settings.new (AlienFleet.mk [] 1 40) = Ok f' /\
    on_edge Settings.new f' = false /\
    AlienFleet.check_fleet_left f' = false.
Proof.
  let v := eval vm_compute in
    (AlienFleet.create_fleet Settings.new (AlienFleet.mk [] 1 40)) in
  match v with Ok ?f' => exists f' end.
  split; [vm_compute; reflexivity|].
  match goal with |- on_edge _ ?f' = _ /\ _ =>
    apply (fresh_fleet_inside_screen Settings.new (AlienFleet.mk [] 1 40) f')
  end.
  - reflexivity.
  - reflexivity.
  - vm_compute; reflexivity.
Defined.

(** ** What one frame does to the statistics *)

Lemma reset_level_fleet (g g' : AlienInvasion.t) :
  AlienInvasion._reset_level g = Ok g' ->
  AlienFleet.create_fleet (AlienInvasion.settings g)
    (AlienFleet.set_fleet (AlienInvasion.alien_fleet g) [])
  = Ok (AlienInvasion.alien_fleet g').
Proof.
  unfold AlienInvasion._reset_level.
  cbn [AlienInvasion.set_ship AlienInvasion.set_alien_fleet
       AlienInvasion.settings AlienInvasion.alien_fleet].
  destruct (AlienFleet.create_fleet _ _) as [laid_out|e];
    cbn [bind]; [|discriminate].
  intros E. injection E as <-. reflexivity.
Qed.

Lemma reset_level_ok_active (g g' : AlienInvasion.t) :
  AlienInvasion._reset_level g = Ok g' ->
  AlienInvasion.game_active g' = AlienInvasion.game_active g.
Proof.
  unfold AlienInvasion._reset_level.
  destruct (AlienFleet.create_fleet _ _) as [laid_out|e];
    cbn [bind]; [|discriminate].
  intros E. injection E as <-. reflexivity.
Qed.

(** A life-loss event: the settings and the scores stay; with a life left
    one is taken and the fleet is laid out anew, otherwise the fleet stays
    and the game is no longer active. *)
Lemma check_game_status_effect (g g' : AlienInvasion.t) :
  AlienInvasion._check_game_status g = Ok g' ->
  AlienInvasion.settings g' = AlienInvasion.settings g /\
  GameStats.max_score (AlienInvasion.game_stats g')
    = GameStats.max_score (AlienInvasion.game_stats g) /\
  GameStats.hi_score (AlienInvasion.game_stats g')
    = GameStats.hi_score (AlienInvasion.game_stats g) /\
  GameStats.score (AlienInvasion.game_stats g')
    = GameStats.score (AlienInvasion.game_stats g) /\
  GameStats.level (AlienInvasion.game_stats g')
    = GameStats.level (AlienInvasion.game_stats g) /\
  ((lives g > 0 /\ lives g' = lives g - 1 /\
    AlienInvasion.game_active g' = AlienInvasion.game_active g /\
    AlienFleet.create_fleet (AlienInvasion.settings g)
      (AlienFleet.set_fleet (AlienInvasion.alien_fleet g) [])
    = Ok (AlienInvasion.alien_fleet g'))
   \/
   (lives g <= 0 /\ g' = AlienInvasion.set_game_active g false)).
Proof.
  unfold AlienInvasion._check_game_status, lives.
  destruct (Z.gtb_spec (GameStats.ships_left (AlienInvasion.game_stats g)) 0)
    as [Hpos|Hzero]; intros E.
  - pose proof (reset_level_stats _ _ E) as [Hs Hst].
    pose proof (reset_level_fleet _ _ E) as Hf.
    pose proof (reset_level_ok_active _ _ E) as Ha.
    rewrite Hs, Hst. cbn in Hf, Ha |- *.
    repeat (split; [reflexivity|]).
    left. repeat split; try assumption; lia.
  - injection E as <-. repeat (split; [reflexivity|]).
    right. split; [lia | reflexivity].
Qed.

Lemma stats_advance_refl (s : GameStats.t) : stats_advance s s.
Proof. unfold stats_advance. lia. Qed.

Lemma stats_advance_life (g g' : AlienInvasion.t) :
  AlienInvasion._check_game_status g = Ok g' ->
  stats_advance (AlienInvasion.game_stats g) (AlienInvasion.game_stats g') /\
  GameStats.ships_left (AlienInvasion.game_stats g')
    = (if lives g >? 0 then lives g - 1 else lives g) /\
  GameStats.level (AlienInvasion.game_stats g')
    = GameStats.level (AlienInvasion.game_stats g) /\
  GameStats.score (AlienInvasion.game_stats g')
    = GameStats.score (AlienInvasion.game_stats g).
Proof.
  intros E.
  destruct (check_game_status_effect g g' E)
    as (_ & Hm & Hh & Hs & Hl & [(Hp & Hd & _)|(Hz & ->)]);
    unfold stats_advance, lives in *.
  - destruct (Z.gtb_spec (GameStats.ships_left (AlienInvasion.game_stats g)) 0);
      repeat split; lia.
  - cbn. destruct (Z.gtb_spec (GameStats.ships_left (AlienInvasion.game_stats g)) 0);
      repeat split; lia.
Qed.

(** The two life-loss tests of a collision pass take at most one life
    between them: after the first has taken one the fleet is fresh, and a
    fresh fleet is not past the left of the screen. *)
Lemma life_phases (g g1 g2 : AlienInvasion.t) :
  0 < Settings.alien_h (AlienInvasion.settings g) ->
  0 < Settings.alien_w (AlienInvasion.settings g) ->
  ship_phase g = Ok g1 -> left_phase g1 = Ok g2 ->
  AlienInvasion.settings g2 = AlienInvasion.settings g /\
  lives g - 1 <= lives g2 <= lives g /\
  GameStats.max_score (AlienInvasion.game_stats g2)
    = GameStats.max_score (AlienInvasion.game_stats g) /\
  GameStats.hi_score (AlienInvasion.game_stats g2)
    = GameStats.hi_score (AlienInvasion.game_stats g) /\
  GameStats.score (AlienInvasion.game_stats g2)
    = GameStats.score (AlienInvasion.game_stats g) /\
  GameStats.level (AlienInvasion.game_stats g2)
    = GameStats.level (AlienInvasion.game_stats g).
Proof.
  intros Hh Hw E1 E2. unfold ship_phase in E1.
  destruct (Ship.check_collisions _ _ _ _) as [hit the_ship].
  set (g0 := AlienInvasion.set_ship g the_ship) in E1.
  assert (H0 : AlienInvasion.settings g0 = AlienInvasion.settings g /\
               AlienInvasion.game_stats g0 = AlienInvasion.game_stats g)
    by (split; reflexivity).
  destruct H0 as [S0 T0]. clearbody g0. unfold left_phase in E2.
  destruct hit.
  - destruct (check_game_status_effect g0 g1 E1)
      as (S1 & M1 & H1 & C1 & L1 & [(Hp & Hd & _ & Hf)|(Hz & Eg)]).
    + rewrite S0 in Hf.
      pose proof (aliens_inside_not_left _ _ Hw
                    (fresh_fleet_aliens_inside _ _ _ Hh Hw Hf)) as Hleft.
      rewrite Hleft in E2. injection E2 as <-.
      unfold lives in *. rewrite T0 in *. rewrite S1, S0, M1, H1, C1, L1.
      repeat split; lia.
    + destruct (AlienFleet.check_fleet_left (AlienInvasion.alien_fleet g1)).
      * destruct (check_game_status_effect g1 g2 E2)
          as (S2 & M2 & H2 & C2 & L2 & [(Hp & _)|(_ & Eg2)]).
        -- subst g1. unfold lives in *. cbn in Hp. rewrite T0 in *. lia.
        -- subst g2 g1. unfold lives in *. cbn. rewrite S0, T0.
           repeat split; lia.
      * injection E2 as <-. subst g1. unfold lives in *. cbn.
        rewrite S0, T0. repeat split; lia.
  - injection E1 as <-.
    destruct (AlienFleet.check_fleet_left (AlienInvasion.alien_fleet g0)).
    + destruct (stats_advance_life g0 g2 E2) as (Ha & _ & Hl & Hs).
      destruct (check_game_status_effect g0 g2 E2)
        as (S2 & M2 & H2 & _ & _ & _).
      unfold stats_advance, lives in *. rewrite T0 in *.
      rewrite S2, S0, M2, H2, Hl, Hs. repeat split; lia.
    + injection E2 as <-. unfold lives. rewrite S0, T0. repeat split; lia.
Qed.

Lemma fold_left_invariant_lives {K V : Type} (st : Settings.t)
  (collisions : list (K * V)) (s : GameStats.t) :
  GameStats.ships_left (GameStats._update_score st collisions s)
  = GameStats.ships_left s.
Proof.
  unfold GameStats._update_score.
  revert s. induction (map snd collisions) as [|v l IH]; intros s;
    [reflexivity|].
  cbn [fold_left]. now rewrite IH.
Qed.

Lemma fold_left_invariant_level {K V : Type} (st : Settings.t)
  (collisions : list (K * V)) (s : GameStats.t) :
  GameStats.level (GameStats._update_score st collisions s)
  = GameStats.level s.
Proof.
  unfold GameStats._update_score.
  revert s. induction (map snd collisions) as [|v l IH]; intros s;
    [reflexivity|].
  cbn [fold_left]. now rewrite IH.
Qed.

Lemma update_keeps_lives_level {K V : Type} (st : Settings.t)
  (collisions : list (K * V)) (s : GameStats.t) :
  GameStats.ships_left (GameStats.update st collisions s)
    = GameStats.ships_left s /\
  GameStats.level (GameStats.update st collisions s) = GameStats.level s.
Proof.
  unfold GameStats.update, GameStats._update_hi_score,
    GameStats._update_max_score.
  rewrite <- (fold_left_invariant_lives st collisions s),
    <- (fold_left_invariant_level st collisions s).
  set (s1 := GameStats._update_score st collisions s).
  destruct (GameStats.score s1 >? GameStats.max_score s1); cbn;
    match goal with |- context [if ?c then _ else _] => destruct c end;
    split; reflexivity.
Qed.

(** The projectile part of a collision pass leaves the lives, adds the alien
    points once per destroyed alien and raises the level by one exactly when
    it ends with an empty fleet. *)
Lemma bullet_phase_effect (g g' : AlienInvasion.t) :
  bullet_phase g = Ok g' ->
  lives g' = lives g /\
  (exists kills : nat,
     GameStats.score (AlienInvasion.game_stats g')
     = GameStats.score (AlienInvasion.game_stats g)
       + Settings.alien_points (AlienInvasion.settings g) * Z.of_nat kills) /\
  GameStats.level (AlienInvasion.game_stats g')
    <= GameStats.level (AlienInvasion.game_stats g) + 1 /\
  GameStats.level (AlienInvasion.game_stats g)
    <= GameStats.level (AlienInvasion.game_stats g') /\
  GameStats.max_score (AlienInvasion.game_stats g)
    <= GameStats.max_score (AlienInvasion.game_stats g') /\
  GameStats.hi_score (AlienInvasion.game_stats g)
    <= GameStats.hi_score (AlienInvasion.game_stats g').
Proof.
  unfold bullet_phase.
  destruct (AlienFleet.check_collisions _ _) as [[collisions the_fleet] the_arsenal].
  set (g1 := match collisions with [] => _ | _ :: _ => _ end).
  assert (H1 : GameStats.ships_left (AlienInvasion.game_stats g1)
               = GameStats.ships_left (AlienInvasion.game_stats g) /\
               GameStats.level (AlienInvasion.game_stats g1)
               = GameStats.level (AlienInvasion.game_stats g) /\
               GameStats.score (AlienInvasion.game_stats g1)
               = GameStats.score (AlienInvasion.game_stats g)
                 + Settings.alien_points (AlienInvasion.settings g)
                   * Z.of_nat (length collisions) /\
               GameStats.max_score (AlienInvasion.game_stats g)
               <= GameStats.max_score (AlienInvasion.game_stats g1) /\
               GameStats.hi_score (AlienInvasion.game_stats g)
               <= GameStats.hi_score (AlienInvasion.game_stats g1)).
  { unfold g1. destruct collisions as [|c l].
    - cbn. repeat split; lia.
    - cbn -[GameStats.update Z.mul Z.add Z.of_nat].
      destruct (update_scores (AlienInvasion.settings g) (c :: l)
                  (AlienInvasion.game_stats g)) as (Hs & Hm & Hh).
      destruct (update_keeps_lives_level (AlienInvasion.settings g) (c :: l)
                  (AlienInvasion.game_stats g)) as (Hl & Hv).
      rewrite Hs, Hm, Hh, Hl, Hv. repeat split; lia. }
  clearbody g1. destruct H1 as (Hl & Hv & Hs & Hm & Hh).
  destruct (AlienFleet.check_destroyed_status (AlienInvasion.alien_fleet g1)).
  - destruct (AlienInvasion._reset_level g1) as [g2|e] eqn:E2;
      cbn [bind]; [|discriminate].
    intros E. injection E as <-. apply reset_level_stats in E2.
    destruct E2 as [E2 _]. unfold lives. cbn. rewrite E2, Hl, Hv.
    split; [reflexivity|]. split; [exists (length collisions); exact Hs|].
    repeat split; lia.
  - intros E. injection E as <-. unfold lives. rewrite Hl, Hv.
    split; [reflexivity|]. split; [exists (length collisions); exact Hs|].
    repeat split; lia.
Qed.

(** One frame of the running game costs at most one life, even when the ship
    is hit and an alien is past the left edge in the same frame; it raises
    the level by at most one, never lowers the session maximum or the high
    score, and with non-negative alien points never lowers the score.  A
    frame of the game that is not active changes nothing. *)
Theorem frame_statistics (g g' : AlienInvasion.t) :
  0 < Settings.alien_h (AlienInvasion.settings g) ->
  0 < Settings.alien_w (AlienInvasion.settings g) ->
  AlienInvasion.frame g = Ok g' ->
  stats_advance (AlienInvasion.game_stats g) (AlienInvasion.game_stats g') /\
  (0 <= Settings.alien_points (AlienInvasion.settings g) ->
   GameStats.score (AlienInvasion.game_stats g)
   <= GameStats.score (AlienInvasion.game_stats g')) /\
  (AlienInvasion.game_active g = false -> g' = g).
Proof.
  intros Hh Hw. unfold AlienInvasion.frame.
  destruct (AlienInvasion.game_active g).
  - set (g0 := AlienInvasion.set_alien_fleet _ _).
    assert (S0 : AlienInvasion.settings g0 = AlienInvasion.settings g)
      by reflexivity.
    assert (T0 : AlienInvasion.game_stats g0 = AlienInvasion.game_stats g)
      by reflexivity.
    clearbody g0. rewrite <- S0 in Hh, Hw.
    rewrite check_collisions_phases.
    destruct (ship_phase g0) as [g1|e] eqn:E1; cbn [bind]; [|discriminate].
    destruct (left_phase g1) as [g2|e] eqn:E2; cbn [bind]; [|discriminate].
    intros E3.
    destruct (life_phases g0 g1 g2 Hh Hw E1 E2)
      as (S2 & Hl & Hm & Hhi & Hs & Hv).
    destruct (bullet_phase_effect g2 g' E3)
      as (Hl' & (kills & Hs') & Hv1 & Hv2 & Hm' & Hhi').
    unfold stats_advance, lives in *. rewrite S2, S0 in Hs'.
    rewrite T0 in *.
    split; [repeat split; lia|]. split; [|discriminate].
    intros Hp. rewrite Hs', Hs. nia.
  - intros E. injection E as <-.
    split; [apply stats_advance_refl|]. split; [lia | reflexivity].
Qed.

(** The theorem at a running game in which an alien lies on the ship. *)
Lemma frame_statistics_witness :
  exists g',
    AlienInvasion.frame rammed_game = Ok g' /\
    stats_advance (AlienInvasion.game_stats rammed_game)
      (AlienInvasion.game_stats g').
Proof.
  let v := eval vm_compute in (AlienInvasion.frame rammed_game) in
  match v with Ok ?g' => exists g' end.
  split; [vm_compute; reflexivity|].
  match goal with |- stats_advance _ (AlienInvasion.game_stats ?g') =>
    apply (frame_statistics rammed_game g')
  end.
  - reflexivity.
  - reflexivity.
  - vm_compute; reflexivity.
Defined.

(** ** Clearing a level *)

Lemma ship_not_hit (st : Settings.t) (fleet : list Alien.t) (s : Ship.t) :
  fst (Ship.check_collisions Alien.rect st fleet s) = false ->
  Ship.check_collisions Alien.rect st fleet s = (false, s).
Proof.
  unfold Ship.check_collisions.
  destruct (Sprite.spritecollideany _ _ _); [discriminate | reflexivity].
Qed.

(** A collision pass in which the ship is not hit and no alien is past the
    left edge: the lives stay, the score rises by the alien points for every
    alien destroyed, and the level is cleared exactly when no alien is left.
    Then the level rises by one, the three speeds are scaled, the arsenal is
    emptied and a fresh fleet is laid out; otherwise the level and the
    settings stay and the survivors go on. *)
Theorem level_cleared_when_fleet_empty (g : AlienInvasion.t) :
  Settings.alien_h (AlienInvasion.settings g) <> 0 ->
  Settings.alien_w (AlienInvasion.settings g) <> 0 ->
  fst (Ship.check_collisions Alien.rect (AlienInvasion.settings g)
         (AlienFleet.fleet (AlienInvasion.alien_fleet g))
         (AlienInvasion.ship g)) = false ->
  AlienFleet.check_fleet_left (AlienInvasion.alien_fleet g) = false ->
  let '(collisions, f', a') :=
    AlienFleet.check_collisions (AlienInvasion.alien_fleet g)
      (Ship.arsenal (AlienInvasion.ship g)) in
  exists g',
    AlienInvasion._check_collisions g = Ok g' /\
    lives g' = lives g /\
    AlienInvasion.game_active g' = AlienInvasion.game_active g /\
    GameStats.score (AlienInvasion.game_stats g')
    = GameStats.score (AlienInvasion.game_stats g)
      + Settings.alien_points (AlienInvasion.settings g)
        * Z.of_nat (length collisions) /\
    (AlienFleet.fleet f' = [] ->
     GameStats.level (AlienInvasion.game_stats g')
       = GameStats.level (AlienInvasion.game_stats g) + 1 /\
     AlienInvasion.settings g'
       = Settings.increase_difficulty (AlienInvasion.settings g) /\
     Ship.arsenal (AlienInvasion.ship g') = [] /\
     AlienFleet.create_fleet (AlienInvasion.settings g) f'
       = Ok (AlienInvasion.alien_fleet g')) /\
    (AlienFleet.fleet f' <> [] ->
     GameStats.level (AlienInvasion.game_stats g')
       = GameStats.level (AlienInvasion.game_stats g) /\
     AlienInvasion.settings g' = AlienInvasion.settings g /\
     Ship.arsenal (AlienInvasion.ship g') = a' /\
     AlienInvasion.alien_fleet g' = f').
Proof.
  intros Hh Hw Hhit Hleft.
  rewrite check_collisions_phases. unfold ship_phase.
  rewrite (ship_not_hit _ _ _ Hhit).
  assert (E0 : AlienInvasion.set_ship g (AlienInvasion.ship g) = g)
    by (destruct g; reflexivity).
  rewrite E0. cbn [bind]. unfold left_phase. rewrite Hleft. cbn [bind].
  unfold bullet_phase.
  destruct (AlienFleet.check_collisions _ _) as [[collisions f'] a'].
  set (g1 := match collisions with [] => _ | _ :: _ => _ end).
  assert (H1 : AlienInvasion.settings g1 = AlienInvasion.settings g /\
               AlienInvasion.alien_fleet g1 = f' /\
               Ship.arsenal (AlienInvasion.ship g1) = a' /\
               AlienInvasion.game_active g1 = AlienInvasion.game_active g /\
               lives g1 = lives g /\
               GameStats.level (AlienInvasion.game_stats g1)
               = GameStats.level (AlienInvasion.game_stats g) /\
               GameStats.score (AlienInvasion.game_stats g1)
               = GameStats.score (AlienInvasion.game_stats g)
                 + Settings.alien_points (AlienInvasion.settings g)
                   * Z.of_nat (length collisions)).
  { unfold g1, lives. destruct collisions as [|c l].
    - cbn. repeat split; lia.
    - cbn -[GameStats.update Z.mul Z.add Z.of_nat].
      destruct (update_scores (AlienInvasion.settings g) (c :: l)
                  (AlienInvasion.game_stats g)) as (Hs & _ & _).
      destruct (update_keeps_lives_level (AlienInvasion.settings g) (c :: l)
                  (AlienInvasion.game_stats g)) as (Hl & Hv).
      rewrite Hs, Hl, Hv. repeat split; reflexivity. }
  clearbody g1. destruct H1 as (S1 & F1 & A1 & Act1 & L1 & V1 & Sc1).
  unfold AlienFleet.check_destroyed_status. rewrite F1.
  destruct (AlienFleet.fleet f') as [|a0 rest] eqn:Ef.
  - rewrite <- S1 in Hh, Hw.
    destruct (reset_level_ok g1 Hh Hw)
      as (g2 & E2 & S2 & T2 & Act2 & _ & Sh2 & Fl2).
    rewrite E2. cbn [bind]. eexists. split; [reflexivity|].
    unfold lives in *.
    cbn [AlienInvasion.set_game_stats AlienInvasion.set_settings
         AlienInvasion.game_stats AlienInvasion.settings AlienInvasion.ship
         AlienInvasion.game_active AlienInvasion.alien_fleet
         HUD.update_level GameStats.update_level GameStats.ships_left
         GameStats.score GameStats.level].
    rewrite T2, S2, S1, Act2, Sh2, L1, Act1, Sc1, V1.
    split; [reflexivity|]. split; [reflexivity|]. split; [reflexivity|].
    split; [|intros H; now elim H].
    intros _. split; [reflexivity|]. split; [reflexivity|].
    split; [reflexivity|].
    rewrite <- Fl2, S1, F1. f_equal.
    destruct f' as [fl dir drop]. cbn in Ef |- *. now subst fl.
  - eexists. split; [reflexivity|].
    split; [exact L1|]. split; [exact Act1|]. split; [exact Sc1|].
    split; [discriminate|]. intros _.
    repeat split; assumption.
Qed.

(** The theorem at a game whose last two aliens each have a bullet on
    them. *)
Lemma level_cleared_when_fleet_empty_witness :
  exists g',
    AlienInvasion._check_collisions last_two_game = Ok g' /\
    GameStats.level (AlienInvasion.game_stats g') = 2 /\
    GameStats.score (AlienInvasion.game_stats g') = 100.
Proof.
  pose proof (level_cleared_when_fleet_empty last_two_game) as H.
  assert (E : AlienFleet.check_collisions
                (AlienInvasion.alien_fleet last_two_game)
                (Ship.arsenal (AlienInvasion.ship last_two_game))
              = ([(alien_left, [short_bullet]); (alien_right, [far_bullet])],
                 AlienFleet.mk [] 1 40, []))
    by (vm_compute; reflexivity).
  rewrite E in H.
  destruct H as (g' & Eg & _ & _ & Hs & Hc & _);
    try (cbn; discriminate); try reflexivity.
  exists g'. split; [exact Eg|].
  destruct (Hc eq_refl) as (Hl & _). split; [exact Hl | exact Hs].
Defined.

(** ** Quitting, the Q key and the play button *)

Lemma save_scores_written (hi : Z) (d : disk) :
  write_error d = None ->
  GameStats.save_scores hi d
  = Ok (mk_disk (Present (ScoresObject (Some hi)))
          (read_error d) None (printed d)).
Proof.
  intros E. unfold GameStats.save_scores, GameStats.write_text.
  rewrite E. reflexivity.
Qed.

(** Quitting through the window, or through the Q key pressed while the game
    is active, writes the high score of the session before the process ends,
    whatever events follow; the next start reads that high score back and
    begins with a session maximum of 0. *)
Theorem quit_saves_high_score (g : AlienInvasion.t) (d : disk)
  (ev : Events.event) (rest : list Events.event) :
  write_error d = None -> read_error d = None ->
  ev = Events.QUIT \/
  (ev = Events.KEYDOWN Events.K_q /\ AlienInvasion.game_active g = true) ->
  exists g' d',
    Events._check_events (ev :: rest) g d = Events.Exit g' d' /\
    AlienInvasion.running g' = false /\
    file d' =
      Present (ScoresObject
                 (Some (GameStats.hi_score (AlienInvasion.game_stats g)))) /\
    forall st, exists s,
      GameStats.__init__ st d' = Ok (s, d') /\
      GameStats.hi_score s = GameStats.hi_score (AlienInvasion.game_stats g) /\
      GameStats.max_score s = 0 /\ GameStats.score s = 0 /\
      GameStats.level s = 1 /\
      GameStats.ships_left s = Settings.starting_ship_count st.
Proof.
  intros Hw Hr Hev.
  assert (E : Events._check_events (ev :: rest) g d
              = Events.save_and_exit (Events.set_running g false) d).
  { destruct Hev as [->|[-> Ha]]; cbn [Events._check_events].
    - unfold Events.save_and_exit.
      destruct (GameStats.save_scores _ d); reflexivity.
    - rewrite Ha. cbn [Events._check_keydown_event].
      unfold Events.save_and_exit.
      destruct (GameStats.save_scores _ d); reflexivity. }
  rewrite E. unfold Events.save_and_exit.
  cbn [Events.set_running AlienInvasion.game_stats].
  rewrite (save_scores_written _ d Hw). do 2 eexists.
  split; [reflexivity|]. split; [reflexivity|]. split; [reflexivity|].
  intros st. eexists. unfold GameStats.__init__, GameStats.init_saved_scores,
    GameStats.path_exists, GameStats.read_and_loads.
  cbn [file read_error bind GameStats.get_hi_score andb].
  rewrite Hr. cbn. split; [reflexivity|]. repeat split; reflexivity.
Qed.

(** The theorem at a quit from a game that has reached a high score of 150
    on a fresh disk. *)
Lemma quit_saves_high_score_witness :
  exists g' d',
    Events._check_events [Events.QUIT]
      (AlienInvasion.set_game_stats last_two_game (GameStats.mk 150 150 3 150 2))
      fresh_disk = Events.Exit g' d' /\
    file d' = Present (ScoresObject (Some 150)).
Proof.
  destruct (quit_saves_high_score
              (AlienInvasion.set_game_stats last_two_game
                 (GameStats.mk 150 150 3 150 2))
              fresh_disk Events.QUIT [] eq_refl eq_refl (or_introl eq_refl))
    as (g' & d' & E & _ & Hf & _).
  exists g', d'. split; [exact E | exact Hf].
Defined.

(** Releasing the Q key ends the process without writing the scores.  While
    the game is not active every key press is ignored, so there a press and
    release of Q ends the process with the scores file as it was. *)
Theorem q_release_exits_unsaved (g : AlienInvasion.t) (d : disk)
  (keys : list Events.key) (rest : list Events.event) :
  Events._check_events (Events.KEYUP Events.K_q :: rest) g d
    = Events.Exit (Events.set_running g false) d /\
  (AlienInvasion.game_active g = false ->
   Events._check_events
     (map Events.KEYDOWN keys ++ Events.KEYUP Events.K_q :: rest) g d
   = Events.Exit (Events.set_running g false) d).
Proof.
  split; [reflexivity|]. intros Ha.
  induction keys as [|k keys IH]; cbn [map app Events._check_events].
  - reflexivity.
  - rewrite Ha. exact IH.
Qed.

(** The play button is the 200 by 50 rectangle centred on the screen; a
    click is on it when it is at or right of its left edge and left of its
    right edge, at or below its top and above its bottom. *)
Lemma play_button_clicked (st : Settings.t) (x y : Z) :
  Button.check_clicked (Button.__init__ st) (x, y) = true <->
  Z.quot (Settings.screen_w st) 2 - 100 <= x
    < Z.quot (Settings.screen_w st) 2 + 100 /\
  Z.quot (Settings.screen_h st) 2 - 25 <= y
    < Z.quot (Settings.screen_h st) 2 + 25.
Proof.
  unfold Button.check_clicked, Button.__init__, RectCenter.collidepoint,
    RectCenter.set_center, RectCenter.center, Settings.boundaries,
    Rect.get_rect, Button.button_w, Button.button_h.
  cbn [Button.rect Rect.x Rect.y Rect.w Rect.h fst snd].
  change (Z.quot 200 2) with 100. change (Z.quot 50 2) with 25.
  rewrite !andb_true_iff. lia.
Qed.

Lemma reset_stats_restart (g : AlienInvasion.t) :
  Settings.alien_h (AlienInvasion.settings g) <> 0 ->
  Settings.alien_w (AlienInvasion.settings g) <> 0 ->
  exists g',
    AlienInvasion.restart_game g = Ok g' /\
    AlienInvasion.settings g'
      = Settings.initialize_dynamic_settings (AlienInvasion.settings g) /\
    AlienInvasion.game_active g' = true /\
    AlienInvasion.game_stats g'
      = GameStats.mk (GameStats.max_score (AlienInvasion.game_stats g))
          (GameStats.hi_score (AlienInvasion.game_stats g)) 3 0 1.
Proof.
  intros Hh Hw. unfold AlienInvasion.restart_game.
  set (g0 := AlienInvasion.set_game_stats _ _).
  destruct (reset_level_ok g0 Hh Hw) as (g1 & E & Hst & Hstats & _).
  rewrite E. cbn [bind]. eexists. split; [reflexivity|].
  cbn [AlienInvasion.set_game_active AlienInvasion.set_ship
       AlienInvasion.game_stats AlienInvasion.settings
       AlienInvasion.game_active].
  rewrite Hst, Hstats. repeat split; reflexivity.
Qed.

(** A click on the play button restarts the game whether or not it is
    active: three lives, score 0, level 1, the base speeds, the session
    maximum and the high score kept.  A click elsewhere changes nothing. *)
Theorem play_click_restarts (g : AlienInvasion.t) (d : disk) (x y : Z) :
  Settings.alien_h (AlienInvasion.settings g) <> 0 ->
  Settings.alien_w (AlienInvasion.settings g) <> 0 ->
  ((Z.quot (Settings.screen_w (AlienInvasion.settings g)) 2 - 100 <= x
      < Z.quot (Settings.screen_w (AlienInvasion.settings g)) 2 + 100 /\
    Z.quot (Settings.screen_h (AlienInvasion.settings g)) 2 - 25 <= y
      < Z.quot (Settings.screen_h (AlienInvasion.settings g)) 2 + 25) ->
   exists g',
     Events._check_events [Events.MOUSEBUTTONDOWN (x, y)] g d = Events.Go g' d /\
     AlienInvasion.restart_game g = Ok g' /\
     AlienInvasion.game_active g' = true /\
     AlienInvasion.settings g'
       = Settings.initialize_dynamic_settings (AlienInvasion.settings g) /\
     AlienInvasion.game_stats g'
       = GameStats.mk (GameStats.max_score (AlienInvasion.game_stats g))
           (GameStats.hi_score (AlienInvasion.game_stats g)) 3 0 1) /\
  (~ (Z.quot (Settings.screen_w (AlienInvasion.settings g)) 2 - 100 <= x
        < Z.quot (Settings.screen_w (AlienInvasion.settings g)) 2 + 100 /\
      Z.quot (Settings.screen_h (AlienInvasion.settings g)) 2 - 25 <= y
        < Z.quot (Settings.screen_h (AlienInvasion.settings g)) 2 + 25) ->
   Events._check_events [Events.MOUSEBUTTONDOWN (x, y)] g d = Events.Go g d).
Proof.
  intros Hh Hw. cbn [Events._check_events].
  unfold Events._check_button_clicked, Events.play_button.
  pose proof (play_button_clicked (AlienInvasion.settings g) x y) as Hb.
  destruct (Button.check_clicked _ (x, y)).
  - split; [|intros Hn; elim Hn; now apply Hb].
    intros _.
    destruct (reset_stats_restart g Hh Hw) as (g' & E & Hs & Ha & Ht).
    exists g'. rewrite E. repeat split; assumption.
  - split; [|reflexivity].
    intros Hin. apply Hb in Hin. discriminate.
Qed.

(** The theorem at a click in the middle of the 1200 by 800 screen during a
    running game. *)
Lemma play_click_restarts_witness :
  exists g',
    Events._check_events [Events.MOUSEBUTTONDOWN (600, 400)] last_two_game
      fresh_disk = Events.Go g' fresh_disk /\
    AlienInvasion.game_active g' = true.
Proof.
  destruct (play_click_restarts last_two_game fresh_disk 600 400)
    as [H _]; try (cbn; discriminate).
  destruct H as (g' & E & _ & Ha & _); [cbn; lia|].
  exists g'. split; [exact E | exact Ha].
Defined.

(** ** Loading the scores: every case *)

(** What [init_saved_scores] makes of the disk.  No file: the high score is
    0 and the default record is written; a write that fails with
    [FileNotFoundError] is printed and passed over, any other failure
    escapes.  A file: it is read and parsed, whatever its size; a record
    without the member [hi_score] gives 0, and the file is not written. *)
Theorem init_saved_scores_cases (d : disk) :
  GameStats.init_saved_scores d =
    match file d with
    | Missing =>
        match write_error d with
        | None =>
            Ok (0, mk_disk (Present (ScoresObject (Some 0))) (read_error d)
                     None (printed d))
        | Some FileNotFoundError =>
            Ok (0, mk_disk Missing (read_error d) (Some FileNotFoundError)
                     (printed d ++ [FileNotFoundError]))
        | Some e => Raise e
        end
    | Present contents =>
        match read_error d with
        | Some e => Raise e
        | None =>
            match contents with
            | Malformed => Raise JSONDecodeError
            | NotAnObject => Raise AttributeError
            | ScoresObject (Some hi) => Ok (hi, d)
            | ScoresObject None => Ok (0, d)
            end
        end
    end.
Proof.
  unfold GameStats.init_saved_scores, GameStats.path_exists,
    GameStats.read_and_loads, GameStats.save_scores, GameStats.write_text.
  destruct d as [f r w p]. cbn [file read_error write_error printed].
  destruct f as [|[| |[hi|]]]; cbn [andb].
  - destruct w as [[]|]; reflexivity.
  - destruct r; reflexivity.
  - destruct r; reflexivity.
  - destruct r; reflexivity.
  - destruct r; reflexivity.
Qed.

(** ** The difficulty over the levels *)




(** ** The flight of the bullets *)

Lemma advance_times_succ (st : Settings.t) (n : nat) (a : Arsenal.t) :
  advance_times st (S n) a
  = Arsenal.update_arsenal st (advance_times st n a).
Proof. reflexivity. Qed.

Lemma update_arsenal_In (st : Settings.t) (a : Arsenal.t) (b' : Bullet.t) :
  In b' (Arsenal.update_arsenal st a) <->
  (exists b, In b a /\ b' = Bullet.update st b) /\
  Rect.right (Bullet.rect b') < Settings.screen_w st + 80.
Proof.
  unfold Arsenal.update_arsenal, Arsenal._remove_bullets_offscreen.
  rewrite filter_In, in_map_iff, negb_true_iff.
  split; intros [(b & H1 & H2) H3].
  - split; [exists b; split; [exact H2 | now symmetry]|]. lia.
  - split; [exists b; split; [now symmetry | exact H1]|]. lia.
Qed.

(** A bullet left after [n] updates of the arsenal is a bullet of the arsenal
    before, updated [n] times, and was kept by the last removal. *)
Lemma advance_times_In (st : Settings.t) (n : nat) (a : Arsenal.t)
  (b' : Bullet.t) :
  In b' (advance_times st n a) ->
  exists b,
    In b a /\ b' = Nat.iter n (Bullet.update st) b /\
    ((0 < n)%nat -> Rect.right (Bullet.rect b') < Settings.screen_w st + 80).
Proof.
  revert b'. induction n as [|n IH]; intros b' Hin.
  - exists b'. split; [exact Hin|]. split; [reflexivity|]. lia.
  - rewrite advance_times_succ in Hin. apply update_arsenal_In in Hin.
    destruct Hin as [(b1 & H1 & ->) Hr].
    destruct (IH b1 H1) as (b & Hb & -> & _).
    exists b. split; [exact Hb|]. split; [reflexivity|]. intros _. exact Hr.
Qed.

(** [n] updates of one bullet in closed form. *)
Lemma bullet_update_iter (st : Settings.t) (n : nat) (b : Bullet.t) :
  Bullet.x (Nat.iter n (Bullet.update st) b)
    == Bullet.x b + inject_Z (Z.of_nat n) * Settings.bullet_speed st /\
  Rect.y (Bullet.rect (Nat.iter n (Bullet.update st) b))
    = Rect.y (Bullet.rect b) /\
  Rect.w (Bullet.rect (Nat.iter n (Bullet.update st) b))
    = Rect.w (Bullet.rect b) /\
  Rect.h (Bullet.rect (Nat.iter n (Bullet.update st) b))
    = Rect.h (Bullet.rect b) /\
  ((0 < n)%nat ->
   Rect.x (Bullet.rect (Nat.iter n (Bullet.update st) b))
   = trunc (Bullet.x (Nat.iter n (Bullet.update st) b))).
Proof.
  induction n as [|n (Hx & Hy & Hw & Hh & _)].
  - cbn. split; [ring|]. repeat split; try reflexivity; lia.
  - rewrite !Nat.iter_succ.
    set (b1 := Nat.iter n (Bullet.update st) b) in *.
    cbn [Bullet.update Bullet.x Bullet.rect Rect.set_x Rect.y Rect.w Rect.h
         Rect.x].
    clearbody b1.
    split.
    + rewrite Hx, Nat2Z.inj_succ. unfold Z.succ. rewrite inject_Z_plus.
      change (inject_Z 1) with 1%Q. ring.
    + repeat split; try assumption; try reflexivity.
Qed.



Lemma archimedes (c v : Q) :
  (0 < v)%Q ->
  exists n : nat,
    forall m : nat, (n <= m)%nat -> (c <= inject_Z (Z.of_nat m) * v)%Q.
Proof.
  intros Hv. exists (Z.to_nat (Qceiling (c / v))). intros m Hm.
  assert (Hc : (c == (c / v) * v)%Q) by (field; lra).
  rewrite Hc. apply Qmult_le_compat_r; [|lra].
  apply Qle_trans with (inject_Z (Qceiling (c / v))); [apply Qle_ceiling|].
  rewrite <- Zle_Qle. lia.
Qed.

Lemma trunc_above_minus_one (q : Q) : (q - 1 < inject_Z (trunc q))%Q.
Proof. pose proof (trunc_above q). lra. Qed.

(** With a positive bullet speed every arsenal runs empty when no shot is
    fired: after some number of advances, and from then on, no bullet is
    left. *)
Theorem arsenal_runs_empty (st : Settings.t) (a : Arsenal.t) :
  (0 < Settings.bullet_speed st)%Q ->
  exists n : nat,
    forall m : nat, (n <= m)%nat -> advance_times st m a = [].
Proof.
  intros Hv.
  assert (Hall : exists n : nat, forall m b,
            (n <= m)%nat -> In b a ->
            (inject_Z (Settings.screen_w st + 80 - Rect.w (Bullet.rect b)) + 1
             <= Bullet.x b
                + inject_Z (Z.of_nat m) * Settings.bullet_speed st)%Q).
  { induction a as [|b0 a IH].
    - exists 0%nat. intros m b _ [].
    - destruct IH as (n1 & H1).
      destruct (archimedes
                  (inject_Z (Settings.screen_w st + 80
                             - Rect.w (Bullet.rect b0)) + 1 - Bullet.x b0)
                  (Settings.bullet_speed st) Hv) as (n0 & H0).
      exists (Nat.max n0 n1). intros m b Hm [<-|Hb].
      + specialize (H0 m ltac:(lia)). lra.
      + apply H1; [lia | exact Hb]. }
  destruct Hall as (n & Hn). exists (S n). intros m Hm.
  destruct (advance_times st m a) as [|b' l] eqn:E; [reflexivity|].
  exfalso.
  assert (Hin : In b' (advance_times st m a)) by (rewrite E; now left).
  destruct (advance_times_In st m a b' Hin) as (b & Hb & Eb & Hr).
  destruct (bullet_update_iter st m b) as (Hx & _ & Hw & _ & Ht).
  rewrite <- Eb in Hx, Hw, Ht.
  specialize (Ht ltac:(lia)). pose proof (Hr ltac:(lia)) as Hright.
  specialize (Hn m b ltac:(lia) Hb).
  unfold Rect.right in Hright. rewrite Ht, Hw in Hright.
  pose proof (trunc_above_minus_one (Bullet.x b')) as Hlow.
  assert (Hq : (inject_Z (trunc (Bullet.x b') + Rect.w (Bullet.rect b))
                < inject_Z (Settings.screen_w st + 80))%Q)
    by (rewrite <- Zlt_Qlt; exact Hright).
  rewrite inject_Z_plus in Hq.
  unfold Zminus in Hn. rewrite inject_Z_plus, inject_Z_opp in Hn.
  lra.
Qed.

(** The theorem at the base settings and one bullet just fired. *)
Lemma arsenal_runs_empty_witness :
  exists n : nat,
    forall m : nat,
      (n <= m)%nat ->
      advance_times Settings.new m
        [Bullet.__init__ Settings.new (Rect.mk 0 380 60 40)] = [].
Proof.
  apply (arsenal_runs_empty Settings.new
           [Bullet.__init__ Settings.new (Rect.mk 0 380 60 40)]).
  reflexivity.
Defined.

(** ** Restarting and constructing the game *)

Lemma create_fleet_shape (st : Settings.t) (f f' : AlienFleet.t) :
  AlienFleet.create_fleet st f = Ok f' ->
  AlienFleet.set_fleet f' [] = AlienFleet.set_fleet f [].
Proof.
  unfold AlienFleet.create_fleet.
  destruct (AlienFleet.calculate_fleet_size _ _ _ _) as [[fleet_h fleet_w]|e];
    cbn [bind]; [|discriminate].
  destruct (AlienFleet.calculate_offsets _ _ _ _ _ _) as [x_offset y_offset].
  intros E. injection E as <-. reflexivity.
Qed.

Lemma center_ship_twice (st : Settings.t) (s : Ship.t) :
  Ship._center_ship st (Ship._center_ship st s) = Ship._center_ship st s.
Proof. reflexivity. Qed.

(** A restart empties the arsenal, lays out a fresh fleet in the direction
    the fleet had, puts the ship on the middle of the left edge with the
    movement flags as they were, and makes the game active; restarting the
    game just restarted changes nothing. *)
Theorem restart_game_resets (g : AlienInvasion.t) :
  Settings.alien_h (AlienInvasion.settings g) <> 0 ->
  Settings.alien_w (AlienInvasion.settings g) <> 0 ->
  exists g',
    AlienInvasion.restart_game g = Ok g' /\
    Ship.arsenal (AlienInvasion.ship g') = [] /\
    Rect.midleft (Ship.rect (AlienInvasion.ship g'))
      = (0, Z.quot (Settings.screen_h (AlienInvasion.settings g)) 2) /\
    Ship.y (AlienInvasion.ship g')
      = inject_Z (Rect.y (Ship.rect (AlienInvasion.ship g'))) /\
    Ship.moving_up (AlienInvasion.ship g')
      = Ship.moving_up (AlienInvasion.ship g) /\
    Ship.moving_down (AlienInvasion.ship g')
      = Ship.moving_down (AlienInvasion.ship g) /\
    AlienFleet.create_fleet (AlienInvasion.settings g')
      (AlienFleet.set_fleet (AlienInvasion.alien_fleet g) [])
    = Ok (AlienInvasion.alien_fleet g') /\
    AlienInvasion.game_active g' = true /\
    AlienInvasion.restart_game g' = Ok g'.
Proof.
  intros Hh Hw. unfold AlienInvasion.restart_game at 1.
  unfold AlienInvasion._reset_level.
  cbn [AlienInvasion.set_settings AlienInvasion.set_game_stats
       AlienInvasion.set_ship AlienInvasion.set_alien_fleet
       AlienInvasion.settings AlienInvasion.game_stats AlienInvasion.ship
       AlienInvasion.alien_fleet AlienInvasion.running
       AlienInvasion.game_active].
  set (st1 := Settings.initialize_dynamic_settings (AlienInvasion.settings g)).
  destruct (create_fleet_ok st1
              (AlienFleet.set_fleet (AlienInvasion.alien_fleet g) []) Hh Hw)
    as (f1 & E1 & _).
  rewrite E1. cbn [bind]. eexists. split; [reflexivity|].
  cbn [AlienInvasion.set_game_active AlienInvasion.set_ship
       AlienInvasion.set_alien_fleet AlienInvasion.ship
       AlienInvasion.settings AlienInvasion.alien_fleet
       AlienInvasion.game_active Ship._center_ship Ship.set_arsenal
       Ship.arsenal Ship.rect Ship.y Ship.moving_up Ship.moving_down].
  split; [reflexivity|].
  split; [now rewrite midleft_set_midleft|].
  split; [reflexivity|]. split; [reflexivity|]. split; [reflexivity|].
  split; [exact E1|]. split; [reflexivity|].
  unfold AlienInvasion.restart_game, AlienInvasion._reset_level.
  cbn [AlienInvasion.set_settings AlienInvasion.set_game_stats
       AlienInvasion.set_ship AlienInvasion.set_alien_fleet
       AlienInvasion.set_game_active
       AlienInvasion.settings AlienInvasion.game_stats AlienInvasion.ship
       AlienInvasion.alien_fleet AlienInvasion.running
       AlienInvasion.game_active].
  change (Settings.initialize_dynamic_settings st1) with st1.
  rewrite (create_fleet_shape st1 _ f1 E1).
  change (AlienFleet.set_fleet
            (AlienFleet.set_fleet (AlienInvasion.alien_fleet g) []) [])
    with (AlienFleet.set_fleet (AlienInvasion.alien_fleet g) []).
  rewrite E1. cbn [bind].
  reflexivity.
Qed.

(** The theorem at a running game on the second level. *)
Lemma restart_game_resets_witness :
  exists g',
    AlienInvasion.restart_game
      (AlienInvasion.set_settings last_two_game level2_settings) = Ok g' /\
    AlienInvasion.restart_game g' = Ok g'.
Proof.
  destruct (restart_game_resets
              (AlienInvasion.set_settings last_two_game level2_settings))
    as (g' & E & _ & _ & _ & _ & _ & _ & _ & Eidem);
    try (cbn; discriminate).
  exists g'. split; [exact E | exact Eidem].
Defined.

(** Constructing the game succeeds exactly when loading the scores does and
    passes its exception on.  The game constructed is not active, has three
    lives and the loaded high score, and its fleet is laid out twice: every
    populated cell holds two aliens, 108 in all. *)
Theorem game_construction (d : disk) :
  AlienInvasion.__init__ d =
    match GameStats.init_saved_scores d with
    | Raise e => Raise e
    | Ok (hi, d') =>
        Ok (AlienInvasion.mk Settings.new (GameStats.mk 0 hi 3 0 1) true
              (Ship.__init__ Settings.new [])
              (AlienFleet.mk (base_layout ++ base_layout) 1 40) false,
            d')
    end /\
  length (base_layout ++ base_layout) = 108%nat.
Proof.
  split; [|reflexivity].
  unfold AlienInvasion.__init__, GameStats.__init__.
  destruct (GameStats.init_saved_scores d) as [[hi d']|e]; cbn [bind];
    [|reflexivity].
  assert (E1 : AlienFleet.__init__ Settings.new
               = Ok (AlienFleet.mk base_layout 1 40))
    by (vm_compute; reflexivity).
  assert (E2 : AlienFleet.create_fleet Settings.new
                 (AlienFleet.mk base_layout 1 40)
               = Ok (AlienFleet.mk (base_layout ++ base_layout) 1 40))
    by (vm_compute; reflexivity).
  rewrite E1. cbn [bind]. rewrite E2. cbn [bind]. reflexivity.
Qed.

(** ** Key events *)

Lemma same_but_keys_refl (g : AlienInvasion.t) : same_but_keys g g.
Proof. unfold same_but_keys. repeat split; reflexivity. Qed.

Lemma same_but_keys_trans (g1 g2 g3 : AlienInvasion.t) :
  same_but_keys g1 g2 -> same_but_keys g2 g3 -> same_but_keys g1 g3.
Proof.
  unfold same_but_keys.
  intros (A1 & A2 & A3 & A4 & A5 & A6 & A7) (B1 & B2 & B3 & B4 & B5 & B6 & B7).
  repeat split; congruence.
Qed.

(** Key events other than Q never end the turn and never touch the disk, the
    settings, the statistics, the fleet or the position of the ship: they
    set and clear the movement flags and, while the game is active, fire.
    While the game is not active the arsenal stays as it is as well, and the
    whole turn changes nothing else. *)
Theorem key_events_keep_game (events : list Events.event)
  (g : AlienInvasion.t) (d : disk) :
  Forall key_event events ->
  exists g',
    Events._check_events events g d = Events.Go g' d /\
    same_but_keys g g' /\
    (length (Ship.arsenal (AlienInvasion.ship g))
     <= length (Ship.arsenal (AlienInvasion.ship g')))%nat /\
    (AlienInvasion.game_active g = false ->
     Ship.arsenal (AlienInvasion.ship g') = Ship.arsenal (AlienInvasion.ship g) /\
     Events.turn events g d = Events.Go g' d).
Proof.
  intros Hall. revert g.
  induction Hall as [|ev events Hev _ IH]; intros g.
  - exists g. split; [reflexivity|]. split; [apply same_but_keys_refl|].
    split; [lia|]. intros Ha. split; [reflexivity|].
    unfold Events.turn, AlienInvasion.frame. cbn. now rewrite Ha.
  - assert (Hstep : exists g1,
              (match ev with
               | Events.QUIT =>
                   Events.save_and_exit (Events.set_running g false) d
               | Events.KEYDOWN k =>
                   if AlienInvasion.game_active g
                   then Events._check_keydown_event k g d else Events.Go g d
               | Events.KEYUP k => Events._check_keyup_event k g d
               | Events.MOUSEBUTTONDOWN mouse_pos =>
                   Events._check_button_clicked mouse_pos g d
               | Events.OTHER => Events.Go g d
               end) = Events.Go g1 d /\
              same_but_keys g g1 /\
              (length (Ship.arsenal (AlienInvasion.ship g))
               <= length (Ship.arsenal (AlienInvasion.ship g1)))%nat /\
              (AlienInvasion.game_active g = false ->
               Ship.arsenal (AlienInvasion.ship g1)
               = Ship.arsenal (AlienInvasion.ship g))).
    { destruct ev as [|k|k|pos|]; cbn in Hev; try contradiction.
      - destruct (AlienInvasion.game_active g) eqn:Ha.
        + destruct k; try contradiction;
            cbn [Events._check_keydown_event];
            try (eexists; split; [reflexivity|];
                 split; [unfold same_but_keys; repeat split; reflexivity|];
                 split; [cbn; lia | discriminate]).
          unfold Ship.fire, Arsenal.fire_bullet.
          destruct (Z.of_nat _ <? _);
            (eexists; split; [reflexivity|];
             split; [unfold same_but_keys; repeat split; reflexivity|];
             split; [cbn; rewrite ?length_app; cbn; lia | discriminate]).
        + exists g. split; [reflexivity|].
          split; [apply same_but_keys_refl|]. split; [lia|reflexivity].
      - destruct k; try contradiction; cbn [Events._check_keyup_event];
          (eexists; split; [reflexivity|];
           split; [unfold same_but_keys; repeat split; reflexivity|];
           split; [cbn; lia | reflexivity]).
      - exists g. split; [reflexivity|].
        split; [apply same_but_keys_refl|]. split; [lia|reflexivity]. }
    destruct Hstep as (g1 & E1 & S1 & L1 & A1).
    destruct (IH g1) as (g' & E' & S' & L' & A').
    exists g'. cbn [Events._check_events]. rewrite E1.
    split; [exact E'|]. split; [now apply (same_but_keys_trans g g1 g')|].
    split; [lia|]. intros Ha.
    assert (Ha1 : AlienInvasion.game_active g1 = false).
    { destruct S1 as (_ & _ & _ & _ & Hact & _). congruence. }
    destruct (A' Ha1) as [Ar Et]. split; [rewrite Ar; now apply A1|].
    unfold Events.turn in *. cbn [Events._check_events]. rewrite E1.
    exact Et.
Qed.

(** The theorem at the title screen with the arrow keys and the space bar
    pressed. *)
Lemma key_events_keep_game_witness :
  exists g',
    Events.turn
      [Events.KEYDOWN Events.K_UP; Events.KEYDOWN Events.K_SPACE;
       Events.KEYUP Events.K_DOWN]
      (AlienInvasion.set_game_active last_two_game false) fresh_disk
    = Events.Go g' fresh_disk /\
    same_but_keys (AlienInvasion.set_game_active last_two_game false) g'.
Proof.
  destruct (key_events_keep_game
              [Events.KEYDOWN Events.K_UP; Events.KEYDOWN Events.K_SPACE;
               Events.KEYUP Events.K_DOWN]
              (AlienInvasion.set_game_active last_two_game false) fresh_disk)
    as (g' & _ & Hs & _ & Ht).
  - repeat constructor; discriminate.
  - exists g'. split; [apply Ht; reflexivity | exact Hs].
Defined.

(** ** The offsets of the layout *)

(** The offsets centre the block of cells: the margin above and the margin
    below differ by at most one pixel, and so do the margins left and right
    of it within the right half of the screen. *)
Theorem offsets_centre_block
  (alien_h fleet_h alien_w fleet_w screen_h screen_w : Z) :
  let '(x_offset, y_offset) :=
    AlienFleet.calculate_offsets alien_h fleet_h alien_w fleet_w
      screen_h screen_w in
  0 <= (screen_h - (y_offset + fleet_h * alien_h)) - y_offset <= 1 /\
  0 <= (screen_w / 2 - (x_offset - screen_w / 2 + fleet_w * alien_w))
       - (x_offset - screen_w / 2) <= 1.
Proof.
  unfold AlienFleet.calculate_offsets.
  pose proof (Z.div_mod (screen_h - fleet_h * alien_h) 2 ltac:(lia)).
  pose proof (Z.mod_pos_bound (screen_h - fleet_h * alien_h) 2 ltac:(lia)).
  pose proof (Z.div_mod (screen_w / 2 - fleet_w * alien_w) 2 ltac:(lia)).
  pose proof (Z.mod_pos_bound (screen_w / 2 - fleet_w * alien_w) 2 ltac:(lia)).
  split; lia.
Qed.
